(** * Frame geometry and temporal padding of the FlashVSR inference driver

    A shallow embedding of [infer_flashvsr_v1.1_full_modified.py]:
    [largest_8n1_leq], [compute_scaled_and_target_dims],
    [upscale_then_center_crop] and [prepare_input_tensor], together with
    the small part of Python and of Pillow they run on.

    - Python [int] is [Z]; Python [float] is the kernel's binary64
      [float], so every concrete run below is the IEEE 754 computation
      CPython performs.  Conversions from [int] are exact below [2^53],
      far above any image dimension.
    - [scale] is a [float], as annotated on line 67; the [int] 4 that
      [main] passes behaves as [4.0] in [min], [max] and the product.
    - An exception is a value [Err] of [result]; a function that can
      raise returns a [result].
    - The file system and the video reader are arguments: the paths that
      [list_images_natural] finds and what each decodes to, the frames a
      reader decodes, its metadata and its frame count.  Printing and the
      closing of the reader are left out. *)

From Stdlib Require Import ZArith Floats Lia Bool Sorted.
From stdpp Require Import base list strings gmap.

Local Open Scope Z_scope.

(** ** The Python fragment the driver uses *)

Module Py.

Inductive exn_class :=
| ValueError | ZeroDivisionError | OverflowError
| RuntimeError | FileNotFoundError | IndexError
| DecompressionBombError.

(** An exception: its class and the fixed head of its message. *)
Record exn := Exn { exn_cls : exn_class; exn_msg : string }.

Inductive result (A : Type) :=
| Ok (a : A)
| Err (e : exn).
Arguments Ok {A} a.
Arguments Err {A} e.

Definition raise {A} (c : exn_class) (m : string) : result A :=
  Err (Exn c m).

Definition bind {A B} (r : result A) (k : A -> result B) : result B :=
  match r with
  | Ok a => k a
  | Err e => Err e
  end.

Definition is_ok {A} (r : result A) : bool :=
  match r with Ok _ => true | Err _ => false end.

(** [for x in l: ys.append(f(x))], stopping at the first exception. *)
Fixpoint for_each {A B} (f : A -> result B) (l : list A) : result (list B) :=
  match l with
  | [] => Ok []
  | x :: l' =>
      bind (f x) (fun y => bind (for_each f l') (fun ys => Ok (y :: ys)))
  end.

(** [float(z)] for an [int]: round to nearest, ties to even.  Exact below
    [2^53], which covers every image dimension. *)
Definition float_of_int (z : Z) : float :=
  SF2Prim (binary_normalize prec emax z 0 false).

(** [a / b] on two [int]s with [b <> 0] (the caller has checked it): for
    operands below [2^53] CPython's true division is the binary64 quotient
    of the converted operands. *)
Definition truediv (a b : Z) : float :=
  (float_of_int a / float_of_int b)%float.

(** [n * x] with [n : int] and [x : float]. *)
Definition mul_int_float (n : Z) (x : float) : float :=
  (float_of_int n * x)%float.

(** [min(a, b, c)]: the running minimum is replaced only by a strictly
    smaller item. *)
Definition min3 (a b c : float) : float :=
  let m := if (b <? a)%float then b else a in
  if (c <? m)%float then c else m.

(** [max(a, b)]: [b] wins only when strictly greater. *)
Definition max2 (a b : float) : float :=
  if (a <? b)%float then b else a.

(** The integer nearest to [m / d], ties to the even one ([0 < d]). *)
Definition div_half_even (m d : Z) : Z :=
  let q := m / d in
  match 2 * (m mod d) ?= d with
  | Lt => q
  | Gt => q + 1
  | Eq => if Z.even q then q else q + 1
  end.

(** [round(x)] on a [float], one argument: an [int], ties to even;
    [OverflowError] on an infinity, [ValueError] on a NaN. *)
Definition round (x : float) : result Z :=
  match Prim2SF x with
  | S754_zero _ => Ok 0
  | S754_finite s m e =>
      let a := if 0 <=? e then Z.pos m * 2 ^ e
               else div_half_even (Z.pos m) (2 ^ (- e)) in
      Ok (if s then - a else a)
  | S754_infinity _ =>
      raise OverflowError "cannot convert float infinity to integer"
  | S754_nan => raise ValueError "cannot convert float NaN to integer"
  end.

(** [a // b] on [int]s: floor division, as [Z.div]. *)
Definition floordiv (a b : Z) : result Z :=
  if b =? 0 then raise ZeroDivisionError "integer division or modulo by zero"
  else Ok (a / b).

(** [len(l)]. *)
Definition len {A} (l : list A) : Z := Z.of_nat (length l).

(** [list(range(n))]. *)
Definition range (n : Z) : list Z := seqZ 0 n.

(** [[x] * k]. *)
Definition times {A} (x : A) (k : nat) : list A := replicate k x.

(** [l[:k]]: a negative [k] counts from the end. *)
Definition slice_to {A} (l : list A) (k : Z) : list A :=
  if k <? 0 then take (Z.to_nat (len l + k)) l else take (Z.to_nat k) l.

(** The values a metadata dictionary can hold. *)
Inductive value :=
| VBool (b : bool)
| VInt (z : Z)
| VFloat (x : float)
| VStr (s : string)
| VNone.

End Py.

Import Py.

Notation "'let*' x ':=' r 'in' k" := (Py.bind r (fun x => k))
  (at level 10, x name, r at level 100, k at level 200).

(** ** The Pillow fragment the driver uses *)

Module PIL.

Definition pixel : Type := Z * Z * Z.

(** An RGB image: its [(width, height)] and its pixels by [(x, y)]. *)
Record Image := mkImage { size : Z * Z; getpixel : Z -> Z -> pixel }.

Definition width (im : Image) : Z := fst (size im).
Definition height (im : Image) : Z := snd (size im).

(** A resampling filter: the pixels of the image resized to a size. *)
Definition filter : Type := Image -> Z * Z -> Z -> Z -> pixel.

(** Pillow's [Image.MAX_IMAGE_PIXELS]. *)
Definition MAX_IMAGE_PIXELS : Z := 89478485.

(** Whether an [int] converts to a C [int], as the arguments of Pillow's
    C functions must. *)
Definition fits_c_int (z : Z) : bool := (- 2 ^ 31 <=? z) && (z <? 2 ^ 31).

(** [im.resize((w, h), resample)]: a copy when the size is unchanged;
    [OverflowError] on a side that is no C [int], [ValueError] on a size
    below one pixel.  Memory is taken to suffice for the result. *)
Definition resize (resample : filter) (im : Image) (sz : Z * Z)
  : result Image :=
  if decide (size im = sz) then Ok im
  else if negb (fits_c_int (fst sz) && fits_c_int (snd sz))
       then raise OverflowError "Python int too large to convert to C int"
       else if (fst sz <? 1) || (snd sz <? 1)
            then raise ValueError "height and width must be > 0"
            else Ok (mkImage sz (resample im sz)).

(** [im.crop((x0, y0, x1, y1))]: [ValueError] on a box whose right or
    lower edge comes first, [DecompressionBombError] on a box of more than
    [2 * MAX_IMAGE_PIXELS] pixels; the result has size [(x1-x0, y1-y0)],
    and what lies outside the source is filled with zeros.  Memory is
    taken to suffice for the result. *)
Definition crop (im : Image) (box : Z * Z * Z * Z) : result Image :=
  let '(x0, y0, x1, y1) := box in
  if x1 <? x0 then raise ValueError "Coordinate 'right' is less than 'left'"
  else if y1 <? y0
       then raise ValueError "Coordinate 'lower' is less than 'upper'"
       else if 2 * MAX_IMAGE_PIXELS <? Z.max 1 (x1 - x0) * Z.max 1 (y1 - y0)
            then raise DecompressionBombError
                   "Image size exceeds limit of 178956970 pixels"
            else Ok (mkImage (x1 - x0, y1 - y0)
                       (fun x y =>
                          let sx := x0 + x in
                          let sy := y0 + y in
                          if (0 <=? sx) && (sx <? width im)
                             && (0 <=? sy) && (sy <? height im)
                          then getpixel im sx sy else (0, 0, 0))).

End PIL.

Import PIL.

(** ** The driver *)

(** [largest_8n1_leq] (line 30). *)
Definition largest_8n1_leq (n : Z) : Z :=
  if n <? 1 then 0 else ((n - 1) / 8) * 8 + 1.

(** Lines 75-76 of [compute_scaled_and_target_dims]: the effective scale.
    [w0] and [h0] are positive here (line 72). *)
Definition effective_scale (w0 h0 : Z) (scale : float) (max_w max_h : Z)
  : float :=
  let scale_eff := min3 scale (truediv max_w w0) (truediv max_h h0) in
  max2 1%float scale_eff.

(** Lines 81-90 of [compute_scaled_and_target_dims]: the target size from
    the scaled size. *)
Definition target_dims (sW sH max_w max_h multiple : Z) : result (Z * Z) :=
  let* qw := floordiv sW multiple in
  let floor_w := Z.max multiple (qw * multiple) in
  let* qh := floordiv sH multiple in
  let floor_h := Z.max multiple (qh * multiple) in
  let* cw := floordiv (sW + multiple - 1) multiple in
  let ceil_w := Z.max multiple (cw * multiple) in
  let* ch := floordiv (sH + multiple - 1) multiple in
  let ceil_h := Z.max multiple (ch * multiple) in
  let can_round_up := (ceil_w <=? max_w) && (ceil_h <=? max_h) in
  if can_round_up then Ok (ceil_w, ceil_h)
  else Ok (Z.min floor_w max_w, Z.min floor_h max_h).

(** [compute_scaled_and_target_dims] (line 64); the result is the tuple
    [(sW, sH, tW, tH, scale_eff)]. *)
Definition compute_scaled_and_target_dims
    (w0 h0 : Z) (scale : float) (max_w max_h multiple : Z)
  : result (Z * Z * Z * Z * float) :=
  if (w0 <=? 0) || (h0 <=? 0) then raise ValueError "invalid original size"
  else
    let scale_eff := effective_scale w0 h0 scale max_w max_h in
    let* sW := round (mul_int_float w0 scale_eff) in
    let* sH := round (mul_int_float h0 scale_eff) in
    let* t := target_dims sW sH max_w max_h multiple in
    Ok (sW, sH, fst t, snd t, scale_eff).

(** The keyword defaults of [compute_scaled_and_target_dims]. *)
Definition default_scale : float := 4%float.
Definition default_max_w : Z := 2560.
Definition default_max_h : Z := 1440.
Definition default_multiple : Z := 128.

(** [upscale_then_center_crop] (line 94), for a resampling filter. *)
Definition upscale_then_center_crop
    (BICUBIC : filter) (img : Image) (sW sH tW tH : Z) : result Image :=
  let* up := resize BICUBIC img (sW, sH) in
  let l := Z.max 0 ((sW - tW) / 2) in
  let t := Z.max 0 ((sH - tH) / 2) in
  crop up (l, t, l + tW, t + tH).

(** Lines 117-121: the padded path list of a directory source and [F]. *)
Definition pad_paths (paths0 : list string) : result (list string * Z) :=
  match last paths0 with
  | None => raise IndexError "list index out of range"
  | Some p_last =>
      let paths := paths0 ++ times p_last 4 in
      let F := largest_8n1_leq (len paths) in
      if F =? 0 then raise RuntimeError "Not enough frames after padding"
      else Ok (slice_to paths F, F)
  end.

(** Lines 176-181: the padded index list of a video source and [F]. *)
Definition pad_indices (total : Z) : result (list Z * Z) :=
  let idx := range total ++ times (total - 1) 4 in
  let F := largest_8n1_leq (len idx) in
  if F =? 0 then raise RuntimeError "Not enough frames after padding"
  else Ok (slice_to idx F, F).

(** Lines 143-144: the frame rate from the reader's metadata; [None] is a
    dictionary without the key. *)
Definition video_fps (fps_entry : option value) : result Z :=
  let fps_val := default (VInt 30) fps_entry in
  match fps_val with
  | VBool b => Ok (if b then 1 else 0)
  | VInt z => Ok z
  | VFloat x => round x
  | VStr _ | VNone => Ok 30
  end.

(** A video reader: the frames it can decode, its metadata dictionary
    ([None] when [get_meta_data] raises) and what [count_frames] answers
    ([None] when it raises). *)
Record Reader := mkReader {
  rd_frames : list Image;
  rd_meta : option (option value * option value);
  rd_count_frames : option Z
}.

(** [rdr.get_data(i)]. *)
Definition get_data (rdr : Reader) (i : Z) : result Image :=
  if i <? 0 then raise IndexError "Reached end of video"
  else match rd_frames rdr !! Z.to_nat i with
       | Some im => Ok im
       | None => raise IndexError "Reached end of video"
       end.

(** Lines 138-142: [meta], empty when the reader cannot give it; the pair
    is the entries under ['fps'] and ['nframes']. *)
Definition meta_of (rdr : Reader) : option value * option value :=
  default (None, None) (rd_meta rdr).

(** [count_frames] (line 146): the declared count, else the reader's own
    count, else the number of frames that decode. *)
Definition count_frames (rdr : Reader) : Z :=
  let counted := default (len (rd_frames rdr)) (rd_count_frames rdr) in
  match snd (meta_of rdr) with
  | Some (VInt nf) => if 0 <? nf then nf else counted
  | Some (VBool true) => 1
  | _ => counted
  end.

(** What [path] is on disk: a directory, with the image files
    [list_images_natural] finds and what each decodes to; a video file,
    with its reader; or anything else. *)
Inductive Source :=
| Directory (paths0 : list string) (open : string -> Image)
| Video (rdr : Reader)
| Unsupported.

(** What [prepare_input_tensor] has fixed before it loads any frame: the
    tuple of [compute_scaled_and_target_dims], the frames to load in order
    (paths or indices), [F] and [fps]. *)
Record Prepared (R : Type) := mkPrepared {
  pr_dims : Z * Z * Z * Z * float;
  pr_refs : list R;
  pr_F : Z;
  pr_fps : Z
}.
Arguments mkPrepared {R}.
Arguments pr_dims {R}.
Arguments pr_refs {R}.
Arguments pr_F {R}.
Arguments pr_fps {R}.

(** Lines 103-122 and 130: the directory branch up to the frame loop. *)
Definition prepare_directory
    (paths0 : list string) (open : string -> Image) (scale : Z)
  : result (Prepared string) :=
  match paths0 with
  | [] => raise FileNotFoundError "No images"
  | p0 :: _ =>
      let '(w0, h0) := size (open p0) in
      let* dims := compute_scaled_and_target_dims w0 h0 (float_of_int scale)
                default_max_w default_max_h 128 in
      let* pf := pad_paths paths0 in
      Ok (mkPrepared dims (fst pf) (snd pf) 30)
  end.

(** Lines 134-182: the video branch up to the frame loop. *)
Definition prepare_video (rdr : Reader) (scale : Z)
  : result (Prepared Z) :=
  let* first := get_data rdr 0 in
  let '(w0, h0) := size first in
  let* fps := video_fps (fst (meta_of rdr)) in
  let total := count_frames rdr in
  if total <=? 0 then raise RuntimeError "Cannot read frames"
  else
    let* dims := compute_scaled_and_target_dims w0 h0 (float_of_int scale)
              default_max_w default_max_h 128 in
    let* pf := pad_indices total in
    Ok (mkPrepared dims (fst pf) (snd pf) fps).

Section Driver.

(** The tensor type and [pil_to_tensor_neg1_1] at the chosen dtype and
    device, and Pillow's bicubic filter. *)
Variable Tensor : Type.
Variable pil_to_tensor_neg1_1 : Image -> Tensor.
Variable BICUBIC : filter.

(** The frame loops (lines 124-128 and 184-189) and the return: the
    frames in order, then [tH, tW, F, fps]. *)
Definition load_frames {R} (load : R -> result Image) (p : Prepared R)
  : result (list Tensor * Z * Z * Z * Z) :=
  let '(sW, sH, tW, tH, _) := pr_dims p in
  let* frames :=
    for_each
      (fun r =>
         let* img := load r in
         let* img_out := upscale_then_center_crop BICUBIC img sW sH tW tH in
         Ok (pil_to_tensor_neg1_1 img_out))
      (pr_refs p) in
  Ok (frames, tH, tW, pr_F p, pr_fps p).

(** [prepare_input_tensor] (line 101). *)
Definition prepare_input_tensor (src : Source) (scale : Z)
  : result (list Tensor * Z * Z * Z * Z) :=
  match src with
  | Directory paths0 open =>
      let* p := prepare_directory paths0 open scale in
      load_frames (fun path => Ok (open path)) p
  | Video rdr =>
      let* p := prepare_video rdr scale in
      load_frames (get_data rdr) p
  | Unsupported => raise ValueError "Unsupported input"
  end.

End Driver.

(** ** File names: [natural_key] and [list_images_natural] *)

(** Python [str] on file names, for names made of ASCII characters: a
    character is a byte, [isdigit] and [lower] are the ASCII ones, and
    [<] on strings is the order of [String.compare]. *)
Module PyStr.

Import Stdlib.Strings.Ascii.

Definition is_digit (c : Ascii.ascii) : bool :=
  ((48 <=? Ascii.N_of_ascii c) && (Ascii.N_of_ascii c <=? 57))%N.

(** [t.isdigit()]: not empty and digits only. *)
Definition isdigit (t : string) : bool :=
  negb (t =? "")%string && forallb is_digit (String.list_ascii_of_string t).

Definition lower_char (c : Ascii.ascii) : Ascii.ascii :=
  let n := Ascii.N_of_ascii c in
  if ((65 <=? n) && (n <=? 90))%N then Ascii.ascii_of_N (n + 32) else c.

(** [t.lower()]. *)
Fixpoint lower (t : string) : string :=
  match t with
  | EmptyString => EmptyString
  | String c t' => String (lower_char c) (lower t')
  end.

(** [int(t)] on a string of digits. *)
Definition int_of_digits (t : string) : Z :=
  fold_left (fun acc c => 10 * acc + (Z.of_N (Ascii.N_of_ascii c) - 48))
    (String.list_ascii_of_string t) 0.

(** [re.split(r'([0-9]+)', s)]: the pieces of [s] between its maximal
    runs of digits, with the runs themselves in between, so the list is
    text, digits, text, ..., text; a text piece is empty where [s] starts
    or ends with a digit. *)
Fixpoint re_split_digits (s : string) : list string :=
  match s with
  | EmptyString => [EmptyString]
  | String c s' =>
      match re_split_digits s' with
      | [] => []
      | t :: tl =>
          if is_digit c then
            match t, tl with
            | EmptyString, d :: tl' => EmptyString :: String c d :: tl'
            | _, _ => EmptyString :: String c EmptyString :: t :: tl
            end
          else String c t :: tl
      end
  end.

Definition has_slash (s : string) : bool :=
  existsb (Ascii.eqb "/"%char) (String.list_ascii_of_string s).

(** [os.path.basename(p)]: what follows the last slash. *)
Fixpoint basename (p : string) : string :=
  match p with
  | EmptyString => EmptyString
  | String c p' =>
      if has_slash p' then basename p'
      else if Ascii.eqb c "/"%char then p' else p
  end.

(** [os.path.join(a, b)]. *)
Definition path_join (a b : string) : string :=
  if String.prefix "/" b then b
  else if (a =? "")%string || Ascii.eqb (default "/"%char (last (String.list_ascii_of_string a))) "/"%char
       then (a ++ b)%string
       else (a ++ "/" ++ b)%string.

(** [s.endswith(suffix)]. *)
Definition endswith (s suffix : string) : bool :=
  let n := String.length s in
  let k := String.length suffix in
  (k <=? n)%nat && (String.substring (n - k) k s =? suffix)%string.

(** An item of a sort key: an [int] or a [str]. *)
Inductive key_item :=
| KInt (z : Z)
| KStr (s : string).

(** [a == b] on key items: an [int] never equals a [str]. *)
Definition item_eqb (a b : key_item) : bool :=
  match a, b with
  | KInt x, KInt y => x =? y
  | KStr x, KStr y => (x =? y)%string
  | _, _ => false
  end.

(** A value, or the [TypeError] that comparing an [int] with a [str]
    raises. *)
Inductive or_type_error (A : Type) :=
| Val (a : A)
| TypeError.
Arguments Val {A} a.
Arguments TypeError {A}.

(** [a < b] on key items. *)
Definition item_lt (a b : key_item) : or_type_error bool :=
  match a, b with
  | KInt x, KInt y => Val (x <? y)
  | KStr x, KStr y => Val (String.ltb x y)
  | _, _ => TypeError
  end.

(** [k1 < k2] on lists: the first pair of items that are not equal
    decides; without one, the shorter list is the smaller. *)
Fixpoint list_lt (k1 k2 : list key_item) : or_type_error bool :=
  match k1, k2 with
  | [], [] => Val false
  | [], _ :: _ => Val true
  | _ :: _, [] => Val false
  | a :: k1', b :: k2' =>
      if item_eqb a b then list_lt k1' k2' else item_lt a b
  end.

(** The place of [x] in a sorted list of items that stood after it: in
    front of the first one that is not smaller than [x]. *)
Fixpoint insert_by_key {A} (key : A -> list key_item) (x : A) (l : list A)
  : or_type_error (list A) :=
  match l with
  | [] => Val [x]
  | y :: l' =>
      match list_lt (key y) (key x) with
      | Val true =>
          match insert_by_key key x l' with
          | Val rest => Val (y :: rest)
          | TypeError => TypeError
          end
      | Val false => Val (x :: l)
      | TypeError => TypeError
      end
  end.

(** [l.sort(key=key)]: a stable sort that compares keys with [<] only. *)
Fixpoint sort_by_key {A} (key : A -> list key_item) (l : list A)
  : or_type_error (list A) :=
  match l with
  | [] => Val []
  | x :: l' =>
      match sort_by_key key l' with
      | Val sorted => insert_by_key key x sorted
      | TypeError => TypeError
      end
  end.

End PyStr.

Import PyStr.

(** [natural_key] (line 21). *)
Definition natural_key (name : string) : list key_item :=
  map (fun t => if isdigit t then KInt (int_of_digits t) else KStr (lower t))
    (re_split_digits (basename name)).

(** The extensions of line 25. *)
Definition image_exts : list string :=
  [".png"; ".jpg"; ".jpeg"; ".PNG"; ".JPG"; ".JPEG"]%string.

(** [list_images_natural] (line 24), on the names that [os.listdir]
    gives for the folder. *)
Definition list_images_natural (folder : string) (listing : list string)
  : or_type_error (list string) :=
  let fs :=
    map (path_join folder)
      (List.filter (fun f => existsb (endswith f) image_exts) listing) in
  sort_by_key natural_key fs.

(** ** The batch loop of [main] *)

Module PyName.

Import Stdlib.Strings.Ascii.

(** [p.rstrip('/')]. *)
Fixpoint rstrip_slash (p : string) : string :=
  match p with
  | EmptyString => EmptyString
  | String c p' =>
      match rstrip_slash p' with
      | EmptyString =>
          if Ascii.eqb c "/" then EmptyString
          else String c EmptyString
      | r => String c r
      end
  end.

(** [name.split('.')[0]]: what stands before the first dot. *)
Fixpoint stem (name : string) : string :=
  match name with
  | EmptyString => EmptyString
  | String c name' =>
      if Ascii.eqb c "." then EmptyString else String c (stem name')
  end.

End PyName.

Import PyName.

(** Line 294: where the result for an input of base name [name] is saved,
    with [RESULT_ROOT = "./results"] and [seed = 0]. *)
Definition output_path (name : string) : string :=
  path_join "./results"
    ("FlashVSR_v1.1_Full_" ++ stem name ++ "_seed0.mp4")%string.

(** Line 288: [sparse_ratio*768*1280/(th*tw)] with [sparse_ratio = 2.0]. *)
Definition topk_ratio (th tw : Z) : result float :=
  if th * tw =? 0 then raise ZeroDivisionError "float division by zero"
  else Ok (mul_int_float 1280 (mul_int_float 768 2) / float_of_int (th * tw))%float.

Section Main.

(** The tensor type, [pil_to_tensor_neg1_1] and the bicubic filter as in
    [prepare_input_tensor]; the inference pipeline, given the frames,
    [F], the height, the width and the top-k ratio (its other arguments
    are constants), and [tensor2video] on its output.  Both can raise. *)
Variable Tensor : Type.
Variable pil_to_tensor_neg1_1 : Image -> Tensor.
Variable BICUBIC : filter.
Variable Video : Type.
Variable Frame : Type.
Variable pipe : list Tensor -> Z -> Z -> Z -> float -> result Video.
Variable tensor2video : Video -> result (list Frame).

(** What an input path is on disk, given the results written so far: the
    result folder is a map from each path to the frames and the frame
    rate saved there. *)
Variable source_at : gmap string (list Frame * Z) -> string -> Source.

(** Line 273, [torch.cuda.empty_cache(); torch.cuda.ipc_collect()] at the
    turn of an input: the exception the two calls raise, if any. *)
Variable cuda_collect : gmap string (list Frame * Z) -> string -> option exn.

(** The writer of [save_video]: the exception it raises on these frames
    at this path and frame rate, if any, and what a failed call leaves at
    the path, given what the path held before. *)
Variable save_error : list Frame -> string -> Z -> option exn.
Variable left_behind :
  option (list Frame * Z) -> list Frame -> Z -> option (list Frame * Z).

(** [save_video] (line 57) on the result folder: it writes at [save_path]
    only; when the writer does not raise, the path holds the frames and
    the frame rate, replacing what was there. *)
Definition save_video (frames : list Frame) (save_path : string) (fps : Z)
    (results : gmap string (list Frame * Z))
  : gmap string (list Frame * Z) * option exn :=
  match save_error frames save_path fps with
  | None => (<[save_path := (frames, fps)]> results, None)
  | Some e =>
      (partial_alter (fun old => left_behind old frames fps) save_path results,
       Some e)
  end.

(** The loop of lines 272-294 with [scale = 4]: a hidden name and an
    input that cannot be prepared are skipped.  Only
    [prepare_input_tensor] is inside the [try]: an exception of the CUDA
    calls, of the division on line 288, of the pipeline, of
    [tensor2video] or of [save_video] ends the run with the result folder
    as it is then. *)
Fixpoint main_loop (inputs : list string)
    (results : gmap string (list Frame * Z))
  : gmap string (list Frame * Z) * option exn :=
  match inputs with
  | [] => (results, None)
  | p :: rest =>
      match cuda_collect results p with
      | Some e => (results, Some e)
      | None =>
          let name := basename (rstrip_slash p) in
          if String.prefix "." name then main_loop rest results
          else
            match prepare_input_tensor Tensor pil_to_tensor_neg1_1 BICUBIC
                    (source_at results p) 4 with
            | Err _ => main_loop rest results
            | Ok (LQ, th, tw, F, fps) =>
                match topk_ratio th tw with
                | Err e => (results, Some e)
                | Ok k =>
                    match pipe LQ F th tw k with
                    | Err e => (results, Some e)
                    | Ok video =>
                        match tensor2video video with
                        | Err e => (results, Some e)
                        | Ok frames =>
                            match save_video frames (output_path name) fps
                                    results with
                            | (results', Some e) => (results', Some e)
                            | (results', None) => main_loop rest results'
                            end
                        end
                    end
                end
            end
      end
  end.

End Main.

(** ** [is_video] and [parse_cli_inputs] *)

(** The extensions of line 34. *)
Definition video_exts : list string := [".mp4"; ".mov"; ".avi"; ".mkv"]%string.

(** [is_video] (line 33), with [os.path.isfile] as an argument. *)
Definition is_video (isfile : string -> bool) (path : string) : bool :=
  isfile path && existsb (endswith (lower path)) video_exts.

(** ASCII white space, as [str.strip] sees it. *)
Definition is_space (c : Strings.Ascii.ascii) : bool :=
  let n := Strings.Ascii.N_of_ascii c in
  ((n =? 32) || ((9 <=? n) && (n <=? 13)) || ((28 <=? n) && (n <=? 31)))%N.

Fixpoint lstrip (s : string) : string :=
  match s with
  | EmptyString => EmptyString
  | String c s' => if is_space c then lstrip s' else s
  end.

Fixpoint rstrip (s : string) : string :=
  match s with
  | EmptyString => EmptyString
  | String c s' =>
      match rstrip s' with
      | EmptyString => if is_space c then EmptyString else String c EmptyString
      | r => String c r
      end
  end.

(** [s.strip()]. *)
Definition strip (s : string) : string := rstrip (lstrip s).

(** Lines 237-240: the argument without a leading ["--"], stripped. *)
Definition cli_entry (raw : string) : string :=
  strip (if String.prefix "--" raw
         then String.substring 2 (String.length raw - 2) raw
         else raw).

(** Lines 244-247: an entry that is not absolute and does not exist is
    looked up under ["./inputs"]. *)
Definition resolve_entry (exists_ : string -> bool) (entry : string)
  : string :=
  if negb (String.prefix "/" entry) && negb (exists_ entry) then
    let candidate := path_join "./inputs" entry in
    if exists_ candidate then candidate else entry
  else entry.

(** The loop of lines 227-249; [None] is [sys.exit(0)] after the help
    text. *)
Fixpoint parse_args (exists_ : string -> bool) (args parsed : list string)
  : option (list string) :=
  match args with
  | [] => Some parsed
  | raw :: rest =>
      if (raw =? "-h")%string || (raw =? "--help")%string then None
      else
        let entry := cli_entry raw in
        if (entry =? "")%string then parse_args exists_ rest parsed
        else parse_args exists_ rest (parsed ++ [resolve_entry exists_ entry])
  end.

(** [parse_cli_inputs] (line 221), on [sys.argv[1:]]. *)
Definition parse_cli_inputs (exists_ : string -> bool) (args : list string)
    (default_inputs : list string) : option (list string) :=
  match args with
  | [] => Some default_inputs
  | _ =>
      match parse_args exists_ args [] with
      | None => None
      | Some [] => Some default_inputs
      | Some parsed => Some parsed
      end
  end.

(** ** Predicates used in the statements *)

(** [path] is the file that a directory source holds at index [i]. *)
Definition path_at (paths0 : list string) (path : string) (i : Z) : Prop :=
  0 <= i /\ paths0 !! Z.to_nat i = Some path.

(** [z] is an integer nearest to the finite binary64 value [x]: with
    [x = v * 2^e], either [e >= 0] and [z] is [x] itself, or
    [|z - x| <= 1/2], stated after multiplying by [2 * 2^(-e)]. *)
Definition nearest_integer (x : float) (z : Z) : Prop :=
  match Prim2SF x with
  | S754_zero _ => z = 0
  | S754_finite s m e =>
      let v := if s then - Z.pos m else Z.pos m in
      if 0 <=? e then z = v * 2 ^ e
      else 2 * Z.abs (z * 2 ^ (- e) - v) <= 2 ^ (- e)
  | S754_infinity _ | S754_nan => False
  end.

(** A name made of ASCII characters only. *)
Definition is_ascii (s : string) : bool :=
  forallb (fun c => (Strings.Ascii.N_of_ascii c <? 128)%N)
    (String.list_ascii_of_string s).

(** A string without a digit, and one that does not start with one. *)
Definition digit_free (s : string) : bool :=
  forallb (fun c => negb (is_digit c)) (String.list_ascii_of_string s).

Definition no_leading_digit (s : string) : bool :=
  match s with
  | EmptyString => true
  | String c _ => negb (is_digit c)
  end.

(** The pieces of [re_split_digits]: text without digits and runs of
    digits in turn, starting and ending with text. *)
Inductive split_shape : list string -> Prop :=
| shape_last (t : string) : digit_free t = true -> split_shape [t]
| shape_more (t d : string) (rest : list string) :
    digit_free t = true -> isdigit d = true -> split_shape rest ->
    split_shape (t :: d :: rest).

(** A key whose items are a [str], an [int], a [str], ... in turn,
    starting with a [str] when [str_first] holds. *)
Fixpoint aligned (str_first : bool) (k : list key_item) : bool :=
  match k with
  | [] => true
  | KStr _ :: k' => str_first && aligned false k'
  | KInt _ :: k' => negb str_first && aligned true k'
  end.

(** A total comparison of key items and of keys that agrees with [<] of
    Python wherever that does not raise: an [int] is put before a [str]. *)
Definition item_cmp (a b : key_item) : comparison :=
  match a, b with
  | KInt x, KInt y => x ?= y
  | KStr x, KStr y => String.compare x y
  | KInt _, KStr _ => Lt
  | KStr _, KInt _ => Gt
  end.

Fixpoint key_cmp (k1 k2 : list key_item) : comparison :=
  match k1, k2 with
  | [], [] => Eq
  | [], _ :: _ => Lt
  | _ :: _, [] => Gt
  | a :: k1', b :: k2' =>
      match item_cmp a b with
      | Eq => key_cmp k1' k2'
      | c => c
      end
  end.

#[global] Instance key_item_eq_dec : EqDecision key_item.
Proof. solve_decision. Defined.

(** [x] does not come after [y] in the order of their keys. *)
Definition key_le {A : Type} (key : A -> list key_item) (x y : A) : Prop :=
  key_cmp (key x) (key y) <> Gt.

(** A file that [list_images_natural] keeps. *)
Definition is_image (f : string) : bool := existsb (endswith f) image_exts.

(** [a] does not come after [b] in the natural order. *)
Definition natural_le (a b : string) : Prop :=
  list_lt (natural_key b) (natural_key a) = Val false.

(** ** Sample inputs *)

(** An all-black image of a given size, and the filter that resamples
    every image to black. *)
Definition blank (w h : Z) : Image := mkImage (w, h) (fun _ _ => (0, 0, 0)).
Definition flat : filter := fun _ _ _ _ => (0, 0, 0).

(** A video of [n] black frames of size [w]x[h] whose metadata hold
    [fps_entry] under ['fps'] and no frame count, and whose reader counts
    its frames correctly. *)
Definition sample_reader (w h : Z) (n : nat) (fps_entry : option value)
  : Reader :=
  mkReader (replicate n (blank w h)) (Some (fps_entry, None))
    (Some (Z.of_nat n)).

(** For the batch loop: a pipeline that returns its input frames, a
    [tensor2video] that returns its input, CUDA calls and a writer that
    never raise, a writer that cannot write, a disk on which every path
    is a one-frame 4x4 video, and one on which no path is a usable
    input. *)
Definition echo_pipe (LQ : list (Z * Z)) (F th tw : Z) (k : float)
  : result (list (Z * Z)) := Ok LQ.
Definition frames_of (video : list (Z * Z)) : result (list (Z * Z)) :=
  Ok video.
Definition cuda_fine (results : gmap string (list (Z * Z) * Z)) (p : string)
  : option exn := None.
Definition writer_fine (frames : list (Z * Z)) (save_path : string) (fps : Z)
  : option exn := None.
Definition keeps_old (old : option (list (Z * Z) * Z))
    (frames : list (Z * Z)) (fps : Z) : option (list (Z * Z) * Z) := old.
Definition one_video_at (results : gmap string (list (Z * Z) * Z))
    (p : string) : Source :=
  Video (sample_reader 4 4 1 None).

(** The double nearest to 29.97. *)
Definition fps_ntsc : float := 0x1.df851eb851eb8p+4%float.

(** * Properties *)

(** ** The order on binary64 values *)

Section FloatOrder.

Ltac sf_cases :=
  repeat match goal with
    | s : bool |- _ => destruct s
    | |- context [Z.compare ?a ?b] => destruct (Z.compare_spec a b)
    | H : context [Z.compare ?a ?b] |- _ => destruct (Z.compare_spec a b)
    | |- context [Pos.compare ?a ?b] => destruct (Pos.compare_spec a b)
    | H : context [Pos.compare ?a ?b] |- _ => destruct (Pos.compare_spec a b)
    end; simpl in *; try congruence; try lia.

Lemma SFltb_trans (x y z : spec_float) :
  SFltb x y = true -> SFltb y z = true -> SFltb x z = true.
Proof.
  unfold SFltb.
  destruct x as [| | |sx mx ex], y as [| | |sy my ey], z as [| | |sz mz ez];
    simpl; try congruence;
    change (Pos.compare_cont Eq) with Pos.compare in *;
    intros Hxy Hyz; sf_cases.
Qed.

Lemma SFltb_SFleb (x y : spec_float) : SFltb x y = true -> SFleb x y = true.
Proof.
  unfold SFltb, SFleb. destruct (SFcompare x y) as [[]|]; congruence.
Qed.

Lemma SFleb_refl_r (x y : spec_float) : SFleb x y = true -> SFleb y y = true.
Proof.
  unfold SFleb.
  destruct x as [| | |sx mx ex], y as [| | |sy my ey];
    simpl; try congruence;
    change (Pos.compare_cont Eq) with Pos.compare in *;
    intros Hxy; sf_cases.
Qed.

Lemma ltb_trans (x y z : float) :
  (x <? y)%float = true -> (y <? z)%float = true -> (x <? z)%float = true.
Proof. rewrite !ltb_spec. apply SFltb_trans. Qed.

Lemma ltb_leb (x y : float) :
  (x <? y)%float = true -> (x <=? y)%float = true.
Proof. rewrite ltb_spec, leb_spec. apply SFltb_SFleb. Qed.

Lemma leb_refl_r (x y : float) :
  (x <=? y)%float = true -> (y <=? y)%float = true.
Proof. rewrite !leb_spec. apply SFleb_refl_r. Qed.

Lemma ltb_not_leb (x y : float) :
  (x <? y)%float = true -> (y <=? x)%float = false.
Proof.
  rewrite ltb_spec, leb_spec. unfold SFltb, SFleb.
  destruct (Prim2SF x) as [| | |sx mx ex], (Prim2SF y) as [| | |sy my ey];
    simpl; try congruence;
    change (Pos.compare_cont Eq) with Pos.compare in *;
    intros Hxy; sf_cases.
Qed.

End FloatOrder.

(** ** [min] and [max] *)

(** [min(a, b, c)] is its first argument or lies strictly below it. *)
Lemma min3_first (a b c : float) :
  min3 a b c = a \/ (min3 a b c <? a)%float = true.
Proof.
  unfold min3.
  destruct (b <? a)%float eqn:Hba.
  - destruct (c <? b)%float eqn:Hcb; [|now right].
    right. now apply ltb_trans with b.
  - destruct (c <? a)%float eqn:Hca; [now right | now left].
Qed.

(** [max(a, b)] is [a], or it is [b] and lies strictly above [a]. *)
Lemma max2_cases (a b : float) :
  (max2 a b = a /\ (a <? b)%float = false)
  \/ (max2 a b = b /\ (a <? b)%float = true).
Proof. unfold max2. destruct (a <? b)%float; auto. Qed.

(** ** The dimension planner *)

(** What [compute_scaled_and_target_dims] returns as its last component
    is the effective scale of lines 75-76. *)
Lemma compute_returns_effective_scale
    (w0 h0 : Z) (scale : float) (max_w max_h multiple : Z)
    (sW sH tW tH : Z) (e : float) :
  compute_scaled_and_target_dims w0 h0 scale max_w max_h multiple
    = Ok (sW, sH, tW, tH, e) ->
  e = effective_scale w0 h0 scale max_w max_h.
Proof.
  unfold compute_scaled_and_target_dims, raise.
  destruct ((w0 <=? 0) || (h0 <=? 0)); [discriminate|].
  destruct (round _); simpl; [|discriminate].
  destruct (round _); simpl; [|discriminate].
  destruct (target_dims _ _ _ _ _); simpl; [|discriminate].
  congruence.
Qed.

(** A target size is never above the maximum it was computed for. *)
Lemma target_dims_le_max (sW sH max_w max_h multiple tW tH : Z) :
  target_dims sW sH max_w max_h multiple = Ok (tW, tH) ->
  tW <= max_w /\ tH <= max_h.
Proof.
  unfold target_dims, floordiv, raise.
  destruct (multiple =? 0); simpl; [discriminate|].
  match goal with |- context [if ?c then _ else _] => destruct c eqn:Hup end;
    intros [= <- <-].
  - apply andb_true_iff in Hup. lia.
  - lia.
Qed.

(** With a positive block size that divides both maxima, the target size
    is made of positive multiples of the block size. *)
Lemma target_dims_multiple (sW sH max_w max_h multiple kw kh : Z) :
  0 < multiple -> 0 < kw -> 0 < kh ->
  max_w = kw * multiple -> max_h = kh * multiple ->
  exists a b, 0 < a /\ 0 < b /\
    target_dims sW sH max_w max_h multiple = Ok (a * multiple, b * multiple).
Proof.
  intros Hm Hkw Hkh -> ->.
  unfold target_dims, floordiv, raise.
  destruct (Z.eqb_spec multiple 0); [lia|]. simpl.
  assert (Hmul : forall q, exists a, 0 < a /\
            Z.max multiple (q * multiple) = a * multiple).
  { intros q. destruct (Z.max_spec multiple (q * multiple)) as [[? ->]|[? ->]].
    - exists q. split; [nia | reflexivity].
    - exists 1. split; lia. }
  assert (Hmin : forall q k, 0 < k -> exists a, 0 < a /\
            Z.min (Z.max multiple (q * multiple)) (k * multiple)
              = a * multiple).
  { intros q k Hk. destruct (Hmul q) as (a & Ha & ->).
    destruct (Z.min_spec (a * multiple) (k * multiple)) as [[? ->]|[? ->]];
      eauto. }
  match goal with |- context [if ?c then _ else _] => destruct c end.
  - destruct (Hmul ((sW + multiple - 1) / multiple)) as (a & Ha & ->).
    destruct (Hmul ((sH + multiple - 1) / multiple)) as (b & Hb & ->).
    eauto 6.
  - destruct (Hmin (sW / multiple) kw Hkw) as (a & Ha & ->).
    destruct (Hmin (sH / multiple) kh Hkh) as (b & Hb & ->).
    eauto 6.
Qed.

(** C1, as the code has it: on a 1920x1080 source with scale 4, bounds
    2560x1440 and block size 128 the planner scales to 2560x1440 and
    targets 2560x1408, since 1440 is not a multiple of 128; the effective
    scale is the binary64 quotient 2560/1920, the double just below 4/3. *)
Theorem plan_1920x1080 :
  compute_scaled_and_target_dims 1920 1080 4 2560 1440 128
    = Ok (2560, 1440, 2560, 1408, truediv 2560 1920)
  /\ Prim2SF (truediv 2560 1920) = S754_finite false 6004799503160661 (-52)
  /\ 3 * 6004799503160661 = 4 * 2 ^ 52 - 1
  /\ 1408 = 11 * 128 /\ 1440 mod 128 = 32.
Proof. repeat split; vm_compute; reflexivity. Qed.

(** C1 as stated fails: the planner does not return the target height
    1440 on that input. *)
Lemma plan_1920x1080_target_not_1440 :
  ~ exists e : float,
      compute_scaled_and_target_dims 1920 1080 4 2560 1440 128
        = Ok (2560, 1440, 2560, 1440, e).
Proof.
  intros [e He]. vm_compute in He. discriminate.
Qed.

(** C2 on the code: for a 3840x2160 source and the defaults (scale 4,
    bounds 2560x1440, block size 128) the effective scale is clamped up to
    1, the floor multiple 2048 exceeds the height bound, and line 90
    returns the bound itself: the target height 1440 is not a multiple of
    128 (1440 = 11 * 128 + 32). *)
Theorem plan_3840x2160_target_off_block :
  compute_scaled_and_target_dims 3840 2160 default_scale
      default_max_w default_max_h default_multiple
    = Ok (3840, 2160, 2560, 1440, 1%float)
  /\ 1440 mod default_multiple = 32
  /\ target_dims 3840 2160 default_max_w default_max_h default_multiple
       = Ok (Z.min 3840 default_max_w, Z.min 2048 default_max_h).
Proof. repeat split; vm_compute; reflexivity. Qed.

(** The effective scale is 1, or it is above 1 and is the requested scale
    or lies strictly below it. *)
Lemma effective_scale_cases (w0 h0 : Z) (scale : float) (max_w max_h : Z) :
  let e := effective_scale w0 h0 scale max_w max_h in
  e = 1%float
  \/ ((1 <? e)%float = true /\ (e = scale \/ (e <? scale)%float = true)).
Proof.
  unfold effective_scale.
  set (m := min3 scale _ _). simpl.
  destruct (max2_cases 1 m) as [[-> _]|[-> Hlt]]; [now left|].
  right. split; [exact Hlt|]. apply min3_first.
Qed.

(** C3, as the code has it: the effective scale is always at least 1.0;
    it is at most the requested scale whenever that is at least 1.0, and
    it is exactly 1.0, above the requested scale, whenever that is below
    1.0. *)
Theorem effective_scale_bounds
    (w0 h0 : Z) (scale : float) (max_w max_h : Z) :
  let e := effective_scale w0 h0 scale max_w max_h in
  (1 <=? e)%float = true
  /\ ((1 <=? scale)%float = true -> (e <=? scale)%float = true)
  /\ ((scale <? 1)%float = true ->
      e = 1%float /\ (e <=? scale)%float = false)
  /\ (forall multiple sW sH tW tH e',
        compute_scaled_and_target_dims w0 h0 scale max_w max_h multiple
          = Ok (sW, sH, tW, tH, e') ->
        e' = e).
Proof.
  intros e. pose proof (effective_scale_cases w0 h0 scale max_w max_h) as Hc.
  fold e in Hc. simpl in Hc. split; [|split; [|split]];
    [| | |intros multiple sW sH tW tH e';
          apply compute_returns_effective_scale].
  - destruct Hc as [->|[Hlt _]]; [reflexivity | now apply ltb_leb].
  - intros Hs. destruct Hc as [->|[_ [->|Hlt]]].
    + exact Hs.
    + now apply leb_refl_r with 1%float.
    + now apply ltb_leb.
  - intros Hs.
    assert (He : e = 1%float).
    { destruct Hc as [->|[Hlt [->|Hlt']]]; [reflexivity| |].
      - apply ltb_not_leb in Hlt. apply ltb_leb in Hs. congruence.
      - pose proof (ltb_trans _ _ _ Hlt' Hs) as Hlt1.
        apply ltb_not_leb in Hlt. apply ltb_leb in Hlt1. congruence. }
    split; [exact He|]. rewrite He. now apply ltb_not_leb.
Qed.

Lemma effective_scale_bounds_witness :
  (1 <=? effective_scale 1920 1080 4 2560 1440)%float = true
  /\ (effective_scale 1920 1080 4 2560 1440 <=? 4)%float = true
  /\ (effective_scale 1920 1080 0.5 2560 1440 = 1%float
      /\ (effective_scale 1920 1080 0.5 2560 1440 <=? 0.5)%float = false)
  /\ truediv 2560 1920 = effective_scale 1920 1080 4 2560 1440.
Proof.
  split; [|split; [|split]].
  - exact (proj1 (effective_scale_bounds 1920 1080 4 2560 1440)).
  - apply (proj1 (proj2 (effective_scale_bounds 1920 1080 4 2560 1440))).
    vm_compute; reflexivity.
  - apply (proj1 (proj2 (proj2
             (effective_scale_bounds 1920 1080 0.5 2560 1440)))).
    vm_compute; reflexivity.
  - apply (proj2 (proj2 (proj2
             (effective_scale_bounds 1920 1080 4 2560 1440)))
             128 2560 1440 2560 1408).
    vm_compute; reflexivity.
Defined.

(** C3 as stated fails: with the requested scale 0.5 the planner returns
    the effective scale 1.0, which is not at most 0.5. *)
Lemma effective_scale_above_requested :
  exists sW sH tW tH e,
    compute_scaled_and_target_dims 1920 1080 0.5 2560 1440 128
      = Ok (sW, sH, tW, tH, e)
    /\ (e <=? 0.5)%float = false.
Proof. do 5 eexists. split; vm_compute; reflexivity. Qed.

(** ** The frame padder *)

Lemma largest_8n1_leq_bounds (n : Z) :
  1 <= n ->
  largest_8n1_leq n mod 8 = 1
  /\ 1 <= largest_8n1_leq n <= n
  /\ n - 7 <= largest_8n1_leq n.
Proof.
  intros Hn. unfold largest_8n1_leq.
  destruct (Z.ltb_spec n 1); [lia|].
  rewrite Z.add_comm, Z.mod_add by lia.
  pose proof (Z.div_mod (n - 1) 8 ltac:(lia)) as Hq.
  pose proof (Z.mod_pos_bound (n - 1) 8 ltac:(lia)) as Hr.
  repeat split; try reflexivity; lia.
Qed.

Lemma largest_8n1_leq_greatest (n k : Z) :
  0 <= k -> 8 * k + 1 <= n -> 8 * k + 1 <= largest_8n1_leq n.
Proof.
  intros Hk Hn. unfold largest_8n1_leq.
  destruct (Z.ltb_spec n 1); [lia|].
  assert (k <= (n - 1) / 8) by (apply Z.div_le_lower_bound; lia).
  lia.
Qed.

Lemma largest_8n1_leq_zero (n : Z) : largest_8n1_leq n = 0 <-> n < 1.
Proof.
  split.
  - intros HF. destruct (Z.lt_ge_cases n 1) as [|Hn]; [assumption|].
    pose proof (largest_8n1_leq_bounds n Hn). lia.
  - intros Hn. unfold largest_8n1_leq. destruct (Z.ltb_spec n 1); lia.
Qed.

Lemma len_app {A} (l k : list A) : len (l ++ k) = len l + len k.
Proof. unfold len. rewrite length_app. lia. Qed.

Lemma len_range (n : Z) : len (range n) = Z.max 0 n.
Proof. unfold len, range. rewrite length_seqZ. lia. Qed.

Lemma len_times {A} (x : A) (k : nat) : len (times x k) = Z.of_nat k.
Proof. unfold len, times. now rewrite length_replicate. Qed.

(** The padding of lines 117-121 and 176-181 on any list: [F] is at least
    one, so the check on [F == 0] never fires. *)
Lemma slice_padded {A} (l : list A) (x : A) :
  let F := largest_8n1_leq (len l + 4) in
  1 <= F
  /\ (F =? 0) = false
  /\ slice_to (l ++ times x 4) F = take (Z.to_nat F) (l ++ replicate 4 x)
  /\ len (take (Z.to_nat F) (l ++ replicate 4 x)) = F.
Proof.
  intros F.
  assert (0 <= len l) by (unfold len; lia).
  destruct (largest_8n1_leq_bounds (len l + 4)) as (_ & HF & _); [lia|].
  fold F in HF.
  repeat split.
  - lia.
  - now apply Z.eqb_neq; lia.
  - unfold slice_to, times. destruct (Z.ltb_spec F 0); [lia | reflexivity].
  - unfold len in *. rewrite length_take, length_app, length_replicate. lia.
Qed.

Lemma pad_indices_eq (total : Z) :
  let F := largest_8n1_leq (Z.max 0 total + 4) in
  pad_indices total
    = Ok (take (Z.to_nat F) (range total ++ replicate 4 (total - 1)), F).
Proof.
  intros F. unfold pad_indices.
  rewrite len_app, len_times, len_range.
  destruct (slice_padded (range total) (total - 1)) as (_ & H0 & Hs & _).
  rewrite len_range in H0, Hs. fold F in H0, Hs.
  change (Z.of_nat 4) with 4. fold F. rewrite H0.
  now rewrite Hs.
Qed.

Lemma pad_paths_eq (paths0 : list string) (p_last : string) :
  last paths0 = Some p_last ->
  let F := largest_8n1_leq (len paths0 + 4) in
  pad_paths paths0
    = Ok (take (Z.to_nat F) (paths0 ++ replicate 4 p_last), F).
Proof.
  intros Hl F. unfold pad_paths. rewrite Hl.
  rewrite len_app, len_times.
  destruct (slice_padded paths0 p_last) as (_ & H0 & Hs & _).
  fold F in H0, Hs. change (Z.of_nat 4) with 4. fold F. rewrite H0.
  now rewrite Hs.
Qed.

Lemma last_of_nonempty {A} (l : list A) : 1 <= len l -> is_Some (last l).
Proof.
  intros Hl. apply last_is_Some. intros ->. unfold len in Hl. simpl in Hl. lia.
Qed.

(** C4: for every source of at least one frame the padded length is
    [sourceLen + 4] and both branches keep [F] frames, where [F] is of the
    form 8n+1, at most [sourceLen + 4], and [F - 4] at most [sourceLen];
    17 frames give the padded length 21, [F = 17] and 13 usable frames. *)
Theorem frame_count_8n1 (sourceLen : Z) (H : 1 <= sourceLen) :
  let F := largest_8n1_leq (sourceLen + 4) in
  (F mod 8 = 1 /\ F <= sourceLen + 4 /\ F - 4 <= sourceLen)
  /\ (exists idx, pad_indices sourceLen = Ok (idx, F) /\ len idx = F)
  /\ (forall paths0 : list string, len paths0 = sourceLen ->
      exists paths, pad_paths paths0 = Ok (paths, F) /\ len paths = F)
  /\ (len (range 17 ++ times 16 4) = 21
      /\ pad_indices 17 = Ok (range 17, 17)
      /\ 17 - 4 = 13).
Proof.
  intros F.
  destruct (largest_8n1_leq_bounds (sourceLen + 4)) as (Hm & HF & _); [lia|].
  fold F in Hm, HF.
  split; [repeat split; lia|]. split; [|split].
  - pose proof (pad_indices_eq sourceLen) as He. cbv zeta in He.
    rewrite Z.max_r in He by lia. fold F in He.
    eexists. split; [exact He|].
    destruct (slice_padded (range sourceLen) (sourceLen - 1)) as (_ & _ & _ & Hl).
    rewrite len_range, Z.max_r in Hl by lia. exact Hl.
  - intros paths0 Hlen.
    destruct (last_of_nonempty paths0) as [p_last Hlast]; [lia|].
    pose proof (pad_paths_eq paths0 p_last Hlast) as He. cbv zeta in He.
    rewrite Hlen in He. fold F in He.
    eexists. split; [exact He|].
    destruct (slice_padded paths0 p_last) as (_ & _ & _ & Hl).
    rewrite Hlen in Hl. exact Hl.
  - repeat split; vm_compute; reflexivity.
Qed.

Lemma frame_count_8n1_witness :
  let F := largest_8n1_leq (17 + 4) in
  (F mod 8 = 1 /\ F <= 17 + 4 /\ F - 4 <= 17)
  /\ (exists idx, pad_indices 17 = Ok (idx, F) /\ len idx = F)
  /\ (forall paths0 : list string, len paths0 = 17 ->
      exists paths, pad_paths paths0 = Ok (paths, F) /\ len paths = F)
  /\ (len (range 17 ++ times 16 4) = 21
      /\ pad_indices 17 = Ok (range 17, 17)
      /\ 17 - 4 = 13).
Proof. apply (frame_count_8n1 17). lia. Defined.

(** The entries of the index plan: entry [i] is [i] capped at the last
    source index. *)
Lemma padded_lookup (total : Z) (i : nat) :
  1 <= total -> Z.of_nat i < total + 4 ->
  (range total ++ replicate 4 (total - 1)) !! i
    = Some (Z.min (Z.of_nat i) (total - 1)).
Proof.
  intros Ht Hi. unfold range.
  destruct (Z.lt_ge_cases (Z.of_nat i) total) as [Hlt|Hge].
  - rewrite lookup_app_l by (rewrite length_seqZ; lia).
    rewrite lookup_seqZ_lt by lia. f_equal. lia.
  - rewrite lookup_app_r by (rewrite length_seqZ; lia).
    rewrite lookup_replicate_2 by (rewrite length_seqZ; lia).
    f_equal. lia.
Qed.

(** The entries of the path plan: entry [i] is the path at position [i],
    capped at the last one. *)
Lemma padded_paths_lookup (paths0 : list string) (p_last : string) (i : nat) :
  last paths0 = Some p_last -> Z.of_nat i < len paths0 + 4 ->
  (paths0 ++ replicate 4 p_last) !! i
    = paths0 !! Z.to_nat (Z.min (Z.of_nat i) (len paths0 - 1)).
Proof.
  intros Hlast Hi. unfold len in *.
  destruct (Z.lt_ge_cases (Z.of_nat i) (Z.of_nat (length paths0))) as [Hlt|Hge].
  - rewrite lookup_app_l by lia. f_equal. lia.
  - rewrite lookup_app_r by lia.
    rewrite lookup_replicate_2 by lia.
    rewrite <- Hlast, last_lookup. f_equal. lia.
Qed.

(** C6, as the code has it, for both kinds of source: the plan holds [F]
    entries and entry [i] is source frame [min i (total - 1)], an index for
    a video and the path at that position for a directory.  When
    [total <= F] the plan is the source frames in order followed by
    [F - total <= 4] copies of the last one; when [F < total], which
    happens exactly for [total mod 8] in 2..4, the plan is the first [F]
    source frames: it holds no padding and leaves out the last
    [total - F] source frames. *)
Theorem index_plan_entries (total : Z) (H : 1 <= total) :
  let F := largest_8n1_leq (total + 4) in
  (F < total <-> 2 <= total mod 8 <= 4)
  /\ (total <= F -> F - total <= 4)
  /\ (exists idx,
        pad_indices total = Ok (idx, F)
        /\ len idx = F
        /\ (forall i : nat, Z.of_nat i < F ->
            idx !! i = Some (Z.min (Z.of_nat i) (total - 1)))
        /\ (total <= F ->
            idx = range total ++ replicate (Z.to_nat (F - total)) (total - 1))
        /\ (F < total -> idx = range F))
  /\ (forall paths0 : list string, len paths0 = total ->
      exists paths p_last,
        pad_paths paths0 = Ok (paths, F)
        /\ last paths0 = Some p_last
        /\ len paths = F
        /\ (forall i : nat, Z.of_nat i < F ->
            paths !! i = paths0 !! Z.to_nat (Z.min (Z.of_nat i) (total - 1)))
        /\ (total <= F ->
            paths = paths0 ++ replicate (Z.to_nat (F - total)) p_last)
        /\ (F < total -> paths = take (Z.to_nat F) paths0)).
Proof.
  intros F.
  destruct (largest_8n1_leq_bounds (total + 4)) as (Hm & HF & HF'); [lia|].
  fold F in Hm, HF, HF'.
  split; [|split; [lia|split]].
  - unfold F, largest_8n1_leq. destruct (Z.ltb_spec (total + 4) 1); [lia|].
    pose proof (Z.div_mod (total + 4 - 1) 8 ltac:(lia)).
    pose proof (Z.mod_pos_bound (total + 4 - 1) 8 ltac:(lia)).
    pose proof (Z.div_mod total 8 ltac:(lia)).
    pose proof (Z.mod_pos_bound total 8 ltac:(lia)).
    lia.
  - pose proof (pad_indices_eq total) as He. cbv zeta in He.
    rewrite Z.max_r in He by lia. fold F in He.
    destruct (slice_padded (range total) (total - 1)) as (_ & _ & _ & Hl).
    rewrite len_range, Z.max_r in Hl by lia. fold F in Hl.
    assert (Hlen : length (range total) = Z.to_nat total)
      by (unfold range; apply length_seqZ).
    eexists. split; [exact He|]. split; [exact Hl|]. split; [|split].
    + intros i Hi. rewrite lookup_take_lt by lia. apply padded_lookup; lia.
    + intros Hle. rewrite take_app, take_ge by lia. f_equal.
      rewrite take_replicate. f_equal. lia.
    + intros Hlt. rewrite take_app_le by lia.
      unfold range. replace total with (F + (total - F)) by lia.
      rewrite seqZ_app by lia.
      rewrite take_app_length' by (rewrite length_seqZ; lia).
      now replace (F + (total - F) - F + F) with total by lia.
  - intros paths0 Hlen.
    destruct (last_of_nonempty paths0) as [p_last Hlast]; [lia|].
    pose proof (pad_paths_eq paths0 p_last Hlast) as He. cbv zeta in He.
    rewrite Hlen in He. fold F in He.
    destruct (slice_padded paths0 p_last) as (_ & _ & _ & Hl).
    rewrite Hlen in Hl. fold F in Hl.
    assert (Hlen' : length paths0 = Z.to_nat total) by (unfold len in Hlen; lia).
    eexists _, p_last. split; [exact He|]. split; [exact Hlast|].
    split; [exact Hl|]. split; [|split].
    + intros i Hi. rewrite lookup_take_lt by lia. rewrite <- Hlen.
      apply padded_paths_lookup; [exact Hlast | lia].
    + intros Hle. rewrite take_app, take_ge by lia. f_equal.
      rewrite take_replicate. f_equal. lia.
    + intros Hlt. now rewrite take_app_le by lia.
Qed.

Lemma index_plan_entries_witness :
  let F := largest_8n1_leq (13 + 4) in
  (F < 13 <-> 2 <= 13 mod 8 <= 4)
  /\ (13 <= F -> F - 13 <= 4)
  /\ (exists idx,
        pad_indices 13 = Ok (idx, F)
        /\ len idx = F
        /\ (forall i : nat, Z.of_nat i < F ->
            idx !! i = Some (Z.min (Z.of_nat i) (13 - 1)))
        /\ (13 <= F ->
            idx = range 13 ++ replicate (Z.to_nat (F - 13)) (13 - 1))
        /\ (F < 13 -> idx = range F))
  /\ (forall paths0 : list string, len paths0 = 13 ->
      exists paths p_last,
        pad_paths paths0 = Ok (paths, F)
        /\ last paths0 = Some p_last
        /\ len paths = F
        /\ (forall i : nat, Z.of_nat i < F ->
            paths !! i = paths0 !! Z.to_nat (Z.min (Z.of_nat i) (13 - 1)))
        /\ (13 <= F ->
            paths = paths0 ++ replicate (Z.to_nat (F - 13)) p_last)
        /\ (F < 13 -> paths = take (Z.to_nat F) paths0)).
Proof. apply (index_plan_entries 13). lia. Defined.

(** C6 as stated fails: a source of 4 frames is planned as its first
    frame alone, a video as the single index 0 and a directory as its
    first path, so the plan neither starts with the 4 source frames nor
    ends on the last one. *)
Lemma index_plan_drops_frames :
  (exists idx F,
     pad_indices 4 = Ok (idx, F)
     /\ take 4 idx <> range 4
     /\ last idx <> Some 3)
  /\ (exists paths F,
        pad_paths ["f1.png"; "f2.png"; "f3.png"; "f4.png"]%string
          = Ok (paths, F)
        /\ take 4 paths <> ["f1.png"; "f2.png"; "f3.png"; "f4.png"]%string
        /\ last paths <> Some "f4.png"%string).
Proof.
  split.
  - exists [0], 1. repeat split; vm_compute; congruence.
  - exists ["f1.png"%string], 1. repeat split; vm_compute; congruence.
Qed.

(** ** Which exceptions can leave each step *)

Lemma round_error (x : float) (e : exn) :
  round x = Err e -> exn_cls e = OverflowError \/ exn_cls e = ValueError.
Proof.
  unfold round, raise. destruct (Prim2SF x); intros [= <-]; simpl; auto.
Qed.

Lemma target_dims_error (sW sH max_w max_h multiple : Z) (e : exn) :
  target_dims sW sH max_w max_h multiple = Err e ->
  exn_cls e = ZeroDivisionError.
Proof.
  unfold target_dims, floordiv, raise.
  destruct (multiple =? 0); simpl.
  - now intros [= <-].
  - match goal with |- context [if ?c then _ else _] => destruct c end;
      discriminate.
Qed.

Lemma compute_error
    (w0 h0 : Z) (scale : float) (max_w max_h multiple : Z) (e : exn) :
  compute_scaled_and_target_dims w0 h0 scale max_w max_h multiple = Err e ->
  exn_cls e = ValueError \/ exn_cls e = OverflowError
  \/ exn_cls e = ZeroDivisionError.
Proof.
  unfold compute_scaled_and_target_dims, raise.
  destruct ((w0 <=? 0) || (h0 <=? 0)); [intros [= <-]; simpl; auto|].
  destruct (round (mul_int_float w0 _)) eqn:Hw; simpl;
    [|intros [= <-]; apply round_error in Hw; tauto].
  destruct (round (mul_int_float h0 _)) eqn:Hh; simpl;
    [|intros [= <-]; apply round_error in Hh; tauto].
  destruct (target_dims _ _ _ _ _) eqn:Ht; simpl; [discriminate|].
  intros [= <-]. apply target_dims_error in Ht. tauto.
Qed.

Lemma get_data_error (rdr : Reader) (i : Z) (e : exn) :
  get_data rdr i = Err e -> exn_cls e = IndexError.
Proof.
  unfold get_data, raise. destruct (i <? 0); [now intros [= <-]|].
  destruct (_ !! _); [discriminate | now intros [= <-]].
Qed.

Lemma video_fps_error (entry : option value) (e : exn) :
  video_fps entry = Err e ->
  exn_cls e = OverflowError \/ exn_cls e = ValueError.
Proof.
  unfold video_fps. destruct entry as [[]|]; simpl; try discriminate.
  apply round_error.
Qed.

Lemma resize_error (BICUBIC : filter) (img : Image) (sz : Z * Z) (e : exn) :
  resize BICUBIC img sz = Err e ->
  exn_cls e = OverflowError \/ exn_cls e = ValueError.
Proof.
  unfold resize, raise. destruct (decide (size img = sz)); [discriminate|].
  destruct (negb _); [intros [= <-]; simpl; auto|].
  destruct (_ || _); [intros [= <-]; simpl; auto | discriminate].
Qed.

Lemma crop_error (im : Image) (box : Z * Z * Z * Z) (e : exn) :
  crop im box = Err e ->
  exn_cls e = ValueError \/ exn_cls e = DecompressionBombError.
Proof.
  unfold crop, raise. destruct box as [[[x0 y0] x1] y1].
  destruct (x1 <? x0); [intros [= <-]; simpl; auto|].
  destruct (y1 <? y0); [intros [= <-]; simpl; auto|].
  destruct (_ <? _); [intros [= <-]; simpl; auto | discriminate].
Qed.

Lemma transform_error
    (BICUBIC : filter) (img : Image) (sW sH tW tH : Z) (e : exn) :
  upscale_then_center_crop BICUBIC img sW sH tW tH = Err e ->
  exn_cls e = OverflowError \/ exn_cls e = ValueError
  \/ exn_cls e = DecompressionBombError.
Proof.
  unfold upscale_then_center_crop.
  destruct (resize BICUBIC img (sW, sH)) as [up|e'] eqn:Hr; cbn [bind].
  - intros Hc. apply crop_error in Hc. tauto.
  - intros [= <-]. apply resize_error in Hr. tauto.
Qed.

Lemma for_each_error {A B : Type} (f : A -> result B) (l : list A) (e : exn) :
  for_each f l = Err e -> exists x, In x l /\ f x = Err e.
Proof.
  induction l as [|x l IH]; cbn [for_each]; [discriminate|].
  destruct (f x) as [y|e'] eqn:Hx; cbn [bind].
  - destruct (for_each f l) as [ys|e'']; cbn [bind]; [discriminate|].
    intros [= <-]. destruct IH as (x' & Hin & Hx'); [reflexivity|].
    exists x'. split; [now right | exact Hx'].
  - intros [= <-]. exists x. split; [now left | exact Hx].
Qed.

(** The frame loop fails with the exception of a frame that does not
    load or with one of Pillow's on the transform. *)
Lemma load_frames_error
    (Tensor : Type) (pil_to_tensor_neg1_1 : Image -> Tensor)
    (BICUBIC : filter) {R : Type} (load : R -> result Image)
    (p : Prepared R) (e : exn) :
  load_frames Tensor pil_to_tensor_neg1_1 BICUBIC load p = Err e ->
  (exists r, In r (pr_refs p) /\ load r = Err e)
  \/ exn_cls e = OverflowError \/ exn_cls e = ValueError
  \/ exn_cls e = DecompressionBombError.
Proof.
  unfold load_frames. destruct (pr_dims p) as [[[[sW sH] tW] tH] s].
  destruct (for_each _ _) as [frames|e'] eqn:Hf; cbn [bind]; [discriminate|].
  intros [= <-]. apply for_each_error in Hf as (r & Hin & Hr).
  destruct (load r) as [img|e''] eqn:Hl; cbn [bind] in Hr.
  - destruct (upscale_then_center_crop BICUBIC img sW sH tW tH) eqn:Ht;
      cbn [bind] in Hr; [discriminate|].
    injection Hr as <-. apply transform_error in Ht. tauto.
  - injection Hr as <-. left. eauto.
Qed.

(** The only [RuntimeError] the video branch raises before its frame loop
    is "Cannot read frames", and it raises it exactly when frame 0 decodes,
    the frame rate rounds and the frame count is not positive. *)
Lemma prepare_video_errors (rdr : Reader) (scale : Z) :
  (forall e, get_data rdr 0 = Err e -> prepare_video rdr scale = Err e)
  /\ (forall e, prepare_video rdr scale = Err e ->
                exn_cls e = RuntimeError ->
                e = Exn RuntimeError "Cannot read frames")
  /\ (prepare_video rdr scale = raise RuntimeError "Cannot read frames"
      <-> is_ok (get_data rdr 0) = true
          /\ is_ok (video_fps (fst (meta_of rdr))) = true
          /\ count_frames rdr <= 0).
Proof.
  unfold prepare_video.
  destruct (get_data rdr 0) as [first|e0] eqn:Hg; cbn [bind is_ok].
  2:{ apply get_data_error in Hg. split; [now intros e [= <-]|]. split.
      - intros e [= <-] Hc. congruence.
      - split; [intros [= ->]; discriminate | intros (? & _); discriminate]. }
  split; [discriminate|].
  destruct (size first) as [w0 h0].
  destruct (video_fps _) as [fps|e1] eqn:Hf; cbn [bind is_ok].
  2:{ apply video_fps_error in Hf. split.
      - intros e [= <-] Hc. destruct Hf; congruence.
      - split; [intros [= ->]; destruct Hf; discriminate
               | intros (_ & ? & _); discriminate]. }
  destruct (Z.leb_spec (count_frames rdr) 0) as [Hc|Hc].
  { split; [now intros e [= <-] | split; auto]. }
  destruct (compute_scaled_and_target_dims _ _ _ _ _ _) as [dims|e2] eqn:Hd;
    cbn [bind].
  2:{ apply compute_error in Hd. split.
      - intros e [= <-] He. destruct Hd as [|[|]]; congruence.
      - split; [intros [= ->]; destruct Hd as [|[|]]; discriminate
               | intros (_ & _ & ?); lia]. }
  rewrite pad_indices_eq. cbn [bind]. split; [discriminate|].
  split; [discriminate | intros (_ & _ & ?); lia].
Qed.

(** The directory branch raises no [RuntimeError] before its frame loop,
    and [FileNotFoundError] exactly on an empty listing. *)
Lemma prepare_directory_errors
    (paths0 : list string) (open : string -> Image) (scale : Z) :
  (forall e, prepare_directory paths0 open scale = Err e ->
             exn_cls e <> RuntimeError)
  /\ (prepare_directory paths0 open scale = raise FileNotFoundError "No images"
      <-> paths0 = []).
Proof.
  unfold prepare_directory.
  destruct paths0 as [|p0 rest]; [split; [now intros e [= <-] | easy]|].
  destruct (size (open p0)) as [w0 h0].
  destruct (compute_scaled_and_target_dims _ _ _ _ _ _) as [dims|e2] eqn:Hd;
    cbn [bind].
  2:{ apply compute_error in Hd. split.
      - intros e [= <-] He. destruct Hd as [|[|]]; congruence.
      - split; [intros [= ->]; destruct Hd as [|[|]]; discriminate
               | discriminate]. }
  destruct (last_of_nonempty (p0 :: rest)) as [p_last Hlast];
    [unfold len; simpl; lia|].
  rewrite (pad_paths_eq _ _ Hlast). cbn [bind].
  split; [discriminate | split; discriminate].
Qed.

(** C5, as the code has it: the padded-length error ("Not enough frames
    after padding") is never raised.  The padded list always holds the
    four copies, so the padding step returns [F >= 1] for every video
    count and every non-empty directory listing.  A source without frames
    is refused before the padding, by another exception: an empty
    directory by [FileNotFoundError] "No images", and exactly an empty
    one; a video whose frame 0 does not decode by the exception of
    [get_data(0)] on line 135; a video whose frame 0 decodes and whose
    frame rate rounds, but whose frame count is [<= 0], by the
    [RuntimeError] "Cannot read frames", and exactly such a video.  That
    is the only [RuntimeError] raised before the frame loop, and whatever
    [prepare_input_tensor] raises, on any source, is not the error of the
    padded length. *)
Theorem frame_count_failures :
  (forall total : Z, exists idx F, pad_indices total = Ok (idx, F) /\ 1 <= F)
  /\ (forall paths0 : list string, paths0 <> [] ->
      exists paths F, pad_paths paths0 = Ok (paths, F) /\ 1 <= F)
  /\ (forall (rdr : Reader) (scale : Z),
        (forall e, get_data rdr 0 = Err e -> prepare_video rdr scale = Err e)
        /\ (forall e, prepare_video rdr scale = Err e ->
                      exn_cls e = RuntimeError ->
                      e = Exn RuntimeError "Cannot read frames")
        /\ (prepare_video rdr scale = raise RuntimeError "Cannot read frames"
            <-> is_ok (get_data rdr 0) = true
                /\ is_ok (video_fps (fst (meta_of rdr))) = true
                /\ count_frames rdr <= 0))
  /\ (forall (paths0 : list string) (open : string -> Image) (scale : Z),
        (forall e, prepare_directory paths0 open scale = Err e ->
                   exn_cls e <> RuntimeError)
        /\ (prepare_directory paths0 open scale
              = raise FileNotFoundError "No images"
            <-> paths0 = []))
  /\ (forall (Tensor : Type) (pil_to_tensor_neg1_1 : Image -> Tensor)
             (BICUBIC : filter) (src : Source) (scale : Z) (e : exn),
        prepare_input_tensor Tensor pil_to_tensor_neg1_1 BICUBIC src scale
          = Err e ->
        e <> Exn RuntimeError "Not enough frames after padding").
Proof.
  split; [|split; [|split; [|split]]].
  - intros total. rewrite pad_indices_eq.
    destruct (largest_8n1_leq_bounds (Z.max 0 total + 4)) as (_ & HF & _);
      [lia|].
    eexists _, _. split; [reflexivity | lia].
  - intros paths0 Hne.
    destruct (proj2 (last_is_Some paths0) Hne) as [p_last Hlast].
    rewrite (pad_paths_eq _ _ Hlast).
    assert (0 <= len paths0) by (unfold len; lia).
    destruct (largest_8n1_leq_bounds (len paths0 + 4)) as (_ & HF & _); [lia|].
    eexists _, _. split; [reflexivity | lia].
  - intros rdr scale. apply prepare_video_errors.
  - intros paths0 open scale. apply prepare_directory_errors.
  - intros Tensor pil BICUBIC src scale e He ->.
    destruct src as [paths0 open|rdr|]; cbn [prepare_input_tensor] in He.
    + destruct (prepare_directory paths0 open scale) as [p|e'] eqn:Hp;
        cbn [bind] in He.
      * apply load_frames_error in He as [(r & _ & Hr)|He]; [discriminate|].
        destruct He as [|[|]]; discriminate.
      * injection He as ->.
        now apply (proj1 (prepare_directory_errors paths0 open scale) _ Hp).
    + destruct (prepare_video_errors rdr scale) as (_ & Hrt & _).
      destruct (prepare_video rdr scale) as [p|e'] eqn:Hp; cbn [bind] in He.
      * apply load_frames_error in He as [(r & _ & Hr)|He].
        -- apply get_data_error in Hr. discriminate.
        -- destruct He as [|[|]]; discriminate.
      * injection He as ->. specialize (Hrt _ eq_refl eq_refl). discriminate.
    + discriminate.
Qed.

Lemma frame_count_failures_witness :
  prepare_video (mkReader [] None None) 4
    = raise IndexError "Reached end of video"
  /\ (exists paths F,
        pad_paths ["f1.png"]%string = Ok (paths, F) /\ 1 <= F).
Proof.
  split.
  - apply (proj1 (proj1 (proj2 (proj2 frame_count_failures))
                    (mkReader [] None None) 4)).
    reflexivity.
  - apply (proj1 (proj2 frame_count_failures)). discriminate.
Defined.

(** C5 as stated fails at [sourceLen = 0]: an empty directory raises
    [FileNotFoundError] "No images", and a video without frames, which
    counts 0 frames, raises the [IndexError] of reading frame 0; neither
    is the error of the padded length. *)
Lemma zero_frames_not_insufficient :
  len ([] : list string) = 0
  /\ prepare_input_tensor (Z * Z) size flat
       (Directory [] (fun _ => blank 4 4)) 4
     = raise FileNotFoundError "No images"
  /\ count_frames (mkReader [] None None) = 0
  /\ prepare_input_tensor (Z * Z) size flat
       (Video (mkReader [] None None)) 4
     = raise IndexError "Reached end of video".
Proof. repeat split; vm_compute; reflexivity. Qed.

(** ** The frame transformer *)

Lemma fits_c_int_iff (z : Z) : fits_c_int z = true <-> - 2 ^ 31 <= z < 2 ^ 31.
Proof. unfold fits_c_int. rewrite andb_true_iff, Z.leb_le, Z.ltb_lt. tauto. Qed.

Lemma resize_ok (BICUBIC : filter) (img : Image) (sW sH : Z) :
  is_ok (resize BICUBIC img (sW, sH)) = true
  <-> size img = (sW, sH) \/ (1 <= sW < 2 ^ 31 /\ 1 <= sH < 2 ^ 31).
Proof.
  unfold resize, raise. destruct (decide (size img = (sW, sH))) as [Heq|Hne].
  - simpl. tauto.
  - cbn [fst snd].
    destruct (fits_c_int sW) eqn:HW; [apply fits_c_int_iff in HW|];
      [destruct (fits_c_int sH) eqn:HH; [apply fits_c_int_iff in HH|]|];
      cbn [andb negb is_ok].
    + destruct (Z.ltb_spec sW 1), (Z.ltb_spec sH 1); cbn [orb is_ok];
        split; try discriminate; try tauto; intros [?|[? ?]]; try lia; tauto.
    + split; [discriminate|]. intros [?|[_ HH']]; [tauto|].
      assert (fits_c_int sH = true) by (apply fits_c_int_iff; lia).
      congruence.
    + split; [discriminate|]. intros [?|[HW' _]]; [tauto|].
      assert (fits_c_int sW = true) by (apply fits_c_int_iff; lia).
      congruence.
Qed.

Lemma resize_size (BICUBIC : filter) (img up : Image) (sW sH : Z) :
  resize BICUBIC img (sW, sH) = Ok up -> size up = (sW, sH).
Proof.
  unfold resize, raise. destruct (decide (size img = (sW, sH))) as [Heq|Hne].
  - now intros [= <-].
  - destruct (negb _); [discriminate|].
    destruct (_ || _); [discriminate | now intros [= <-]].
Qed.

Lemma crop_ok (im : Image) (x0 y0 x1 y1 : Z) :
  is_ok (crop im (x0, y0, x1, y1)) = true
  <-> x0 <= x1 /\ y0 <= y1
      /\ Z.max 1 (x1 - x0) * Z.max 1 (y1 - y0) <= 2 * MAX_IMAGE_PIXELS.
Proof.
  unfold crop, raise.
  destruct (Z.ltb_spec x1 x0), (Z.ltb_spec y1 y0); cbn [is_ok];
    try (split; [discriminate | lia]).
  destruct (Z.ltb_spec (2 * MAX_IMAGE_PIXELS)
              (Z.max 1 (x1 - x0) * Z.max 1 (y1 - y0))); cbn [is_ok];
    split; try discriminate; try lia; auto.
Qed.

Lemma crop_size (im out : Image) (x0 y0 x1 y1 : Z) :
  crop im (x0, y0, x1, y1) = Ok out -> size out = (x1 - x0, y1 - y0).
Proof.
  unfold crop, raise.
  destruct (x1 <? x0); [discriminate|].
  destruct (y1 <? y0); [discriminate|].
  destruct (_ <? _); [discriminate|]. now intros [= <-].
Qed.

Lemma crop_pixels (im out : Image) (x0 y0 x1 y1 : Z) :
  crop im (x0, y0, x1, y1) = Ok out ->
  forall x y,
    getpixel out x y
    = if (0 <=? x0 + x) && (x0 + x <? width im)
         && (0 <=? y0 + y) && (y0 + y <? height im)
      then getpixel im (x0 + x) (y0 + y) else (0, 0, 0).
Proof.
  unfold crop, raise.
  destruct (x1 <? x0); [discriminate|].
  destruct (y1 <? y0); [discriminate|].
  destruct (_ <? _); [discriminate|]. now intros [= <-].
Qed.

(** The transform succeeds exactly when its resize does and Pillow accepts
    the crop box, which depends on the target size alone. *)
Lemma transform_ok (BICUBIC : filter) (img : Image) (sW sH tW tH : Z) :
  is_ok (upscale_then_center_crop BICUBIC img sW sH tW tH) = true
  <-> is_ok (resize BICUBIC img (sW, sH)) = true
      /\ 0 <= tW /\ 0 <= tH
      /\ Z.max 1 tW * Z.max 1 tH <= 2 * MAX_IMAGE_PIXELS.
Proof.
  unfold upscale_then_center_crop.
  destruct (resize BICUBIC img (sW, sH)) as [up|e]; cbn [bind is_ok].
  - rewrite crop_ok.
    replace (Z.max 0 ((sW - tW) / 2) + tW - Z.max 0 ((sW - tW) / 2))
      with tW by lia.
    replace (Z.max 0 ((sH - tH) / 2) + tH - Z.max 0 ((sH - tH) / 2))
      with tH by lia.
    split; [intros (? & ? & ?); repeat split; (reflexivity || lia)
           | intros (_ & ? & ? & ?); repeat split; lia].
  - split; [discriminate | intros [? _]; discriminate].
Qed.

(** Every pixel of the frame the transform returns: the pixel of the
    upscaled image at the clamped offsets where that lies inside it, zero
    elsewhere. *)
Lemma transform_pixels
    (BICUBIC : filter) (img up out : Image) (sW sH tW tH : Z) :
  resize BICUBIC img (sW, sH) = Ok up ->
  upscale_then_center_crop BICUBIC img sW sH tW tH = Ok out ->
  forall x y,
    getpixel out x y
    = if (0 <=? Z.max 0 ((sW - tW) / 2) + x)
         && (Z.max 0 ((sW - tW) / 2) + x <? sW)
         && (0 <=? Z.max 0 ((sH - tH) / 2) + y)
         && (Z.max 0 ((sH - tH) / 2) + y <? sH)
      then getpixel up (Z.max 0 ((sW - tW) / 2) + x)
             (Z.max 0 ((sH - tH) / 2) + y)
      else (0, 0, 0).
Proof.
  intros Hup. unfold upscale_then_center_crop. rewrite Hup. cbn [bind].
  intros Hc x y. rewrite (crop_pixels _ _ _ _ _ _ Hc x y).
  apply resize_size in Hup. unfold width, height. rewrite Hup.
  reflexivity.
Qed.

(** C7, as the code has it: the transform compares no target size with a
    scaled size and raises no error of its own.  With the offsets
    [l = max(0, (sW - tW) // 2)] and [t = max(0, (sH - tH) // 2)], it
    succeeds exactly when Pillow's resize to [(sW, sH)] succeeds and
    Pillow accepts the crop box: [tW] and [tH] are not negative and the
    box holds at most [2 * MAX_IMAGE_PIXELS] pixels.  So for a frame and
    a plan with sides up to 8192, a scaled size of at least 1x1 and a
    target size that is not negative it succeeds, also with a target
    above the scaled size.  Pixel [(x, y)] of the frame returned is pixel
    [(l + x, t + y)] of the upscaled image where that lies inside it, and
    zero elsewhere: a larger target is filled with zeros on the right and
    at the bottom. *)
Theorem transform_succeeds_iff
    (BICUBIC : filter) (img : Image) (sW sH tW tH : Z) :
  let l := Z.max 0 ((sW - tW) / 2) in
  let t := Z.max 0 ((sH - tH) / 2) in
  (is_ok (upscale_then_center_crop BICUBIC img sW sH tW tH) = true
   <-> is_ok (resize BICUBIC img (sW, sH)) = true
       /\ 0 <= tW /\ 0 <= tH
       /\ Z.max 1 tW * Z.max 1 tH <= 2 * MAX_IMAGE_PIXELS)
  /\ (1 <= width img <= 8192 -> 1 <= height img <= 8192 ->
      1 <= sW <= 8192 -> 1 <= sH <= 8192 ->
      0 <= tW <= 8192 -> 0 <= tH <= 8192 ->
      is_ok (upscale_then_center_crop BICUBIC img sW sH tW tH) = true)
  /\ (forall up out x y,
        resize BICUBIC img (sW, sH) = Ok up ->
        upscale_then_center_crop BICUBIC img sW sH tW tH = Ok out ->
        getpixel out x y
        = if (0 <=? l + x) && (l + x <? sW) && (0 <=? t + y) && (t + y <? sH)
          then getpixel up (l + x) (t + y) else (0, 0, 0)).
Proof.
  intros l t. split; [apply transform_ok|]. split.
  - intros _ _ HsW HsH HtW HtH. apply transform_ok.
    split; [apply resize_ok; right; lia|].
    split; [lia|]. split; [lia|].
    unfold MAX_IMAGE_PIXELS. nia.
  - intros up out x y Hup Hout.
    exact (transform_pixels BICUBIC img up out sW sH tW tH Hup Hout x y).
Qed.

Lemma transform_succeeds_iff_witness :
  is_ok (upscale_then_center_crop flat (blank 100 100) 400 400 512 512) = true
  /\ (forall out,
        upscale_then_center_crop flat (blank 100 100) 400 400 512 512 = Ok out ->
        getpixel out 450 0 = (0, 0, 0) /\ getpixel out 0 450 = (0, 0, 0)).
Proof.
  pose proof (transform_succeeds_iff flat (blank 100 100) 400 400 512 512)
    as (_ & Hok & Hpx).
  split.
  - apply Hok; cbn; lia.
  - intros out Hout. split.
    + exact (Hpx (mkImage (400, 400) (flat (blank 100 100) (400, 400)))
               out 450 0 eq_refl Hout).
    + exact (Hpx (mkImage (400, 400) (flat (blank 100 100) (400, 400)))
               out 0 450 eq_refl Hout).
Defined.

(** C7 as stated fails: for a 100x100 source the planner itself gives the
    scaled size 400x400 and the larger target 512x512, and the transform
    of a 100x100 frame with that plan succeeds. *)
Lemma transform_accepts_larger_target :
  compute_scaled_and_target_dims 100 100 default_scale
      default_max_w default_max_h default_multiple
    = Ok (400, 400, 512, 512, 4%float)
  /\ 400 < 512
  /\ is_ok (upscale_then_center_crop flat (blank 100 100) 400 400 512 512)
     = true.
Proof. repeat split; vm_compute; reflexivity. Qed.

(** C8: whenever the transform returns a frame, its height and width are
    exactly [tH] and [tW], whatever the size of the input and however the
    scaled size compares with the target; and it does return one for
    every plan whose scaled size is at least 1x1 and whose target size is
    not negative, within Pillow's limits on the sides and on the number
    of pixels. *)
Theorem transform_shape
    (BICUBIC : filter) (img : Image) (sW sH tW tH : Z) :
  (forall out,
      upscale_then_center_crop BICUBIC img sW sH tW tH = Ok out ->
      height out = tH /\ width out = tW)
  /\ (1 <= sW < 2 ^ 31 -> 1 <= sH < 2 ^ 31 -> 0 <= tW -> 0 <= tH ->
      Z.max 1 tW * Z.max 1 tH <= 2 * MAX_IMAGE_PIXELS ->
      exists out,
        upscale_then_center_crop BICUBIC img sW sH tW tH = Ok out
        /\ height out = tH /\ width out = tW).
Proof.
  assert (Hshape : forall out,
             upscale_then_center_crop BICUBIC img sW sH tW tH = Ok out ->
             height out = tH /\ width out = tW).
  { intros out. unfold upscale_then_center_crop.
    destruct (resize BICUBIC img (sW, sH)) as [up|e]; cbn [bind]; [|discriminate].
    intros Hc. apply crop_size in Hc. unfold height, width. rewrite Hc.
    simpl. lia. }
  split; [exact Hshape|].
  intros HsW HsH HtW HtH Hpix.
  destruct (upscale_then_center_crop BICUBIC img sW sH tW tH) as [out|e] eqn:Hu.
  - exists out. split; [reflexivity | now apply Hshape].
  - exfalso.
    assert (Hok : is_ok (upscale_then_center_crop BICUBIC img sW sH tW tH)
                  = true).
    { apply transform_ok. split; [apply resize_ok; right; lia|]. lia. }
    rewrite Hu in Hok. discriminate.
Qed.

Lemma transform_shape_witness :
  exists out,
    upscale_then_center_crop flat (blank 100 100) 400 400 512 512 = Ok out
    /\ height out = 512 /\ width out = 512.
Proof.
  apply (proj2 (transform_shape flat (blank 100 100) 400 400 512 512));
    unfold MAX_IMAGE_PIXELS; lia.
Defined.

(** ** The two branches of [prepare_input_tensor] *)

(** The padded path list and the padded index list of a source of the
    same length agree entry by entry. *)
Lemma padded_paths_indices (paths0 : list string) (p_last : string) :
  1 <= len paths0 -> last paths0 = Some p_last ->
  Forall2 (path_at paths0)
    (paths0 ++ replicate 4 p_last)
    (range (len paths0) ++ replicate 4 (len paths0 - 1)).
Proof.
  intros Hn Hlast. set (N := len paths0) in *.
  assert (HN : length paths0 = Z.to_nat N) by (unfold N, len; lia).
  apply Forall2_same_length_lookup_2.
  { unfold range. rewrite !length_app, length_seqZ, !length_replicate. lia. }
  intros i path j Hp Hj.
  assert (Hi : Z.of_nat i < N + 4).
  { apply lookup_lt_Some in Hp.
    rewrite length_app, length_replicate in Hp. lia. }
  rewrite padded_lookup in Hj by lia. injection Hj as <-.
  split; [lia|].
  destruct (Z.lt_ge_cases (Z.of_nat i) N) as [Hlt|Hge].
  - rewrite lookup_app_l in Hp by lia.
    rewrite Z.min_l, Nat2Z.id by lia. exact Hp.
  - rewrite lookup_app_r in Hp by lia.
    apply lookup_replicate_1 in Hp as [-> _].
    rewrite Z.min_r by lia. rewrite last_lookup in Hlast.
    rewrite <- Hlast. f_equal. lia.
Qed.

(** The two branches up to the frame loop, on sources of the same size
    and length. *)
Lemma branches_agree_plan
    (p0 : string) (rest : list string) (open : string -> Image)
    (rdr : Reader) (scale : Z) (first : Image) (fps : Z)
    (Hfirst : get_data rdr 0 = Ok first)
    (Hfps : video_fps (fst (meta_of rdr)) = Ok fps)
    (Hsize : size (open p0) = size first)
    (Hcount : count_frames rdr = len (p0 :: rest)) :
  (exists d v,
      prepare_directory (p0 :: rest) open scale = Ok d
      /\ prepare_video rdr scale = Ok v
      /\ pr_dims d = pr_dims v
      /\ pr_F d = pr_F v
      /\ Forall2 (path_at (p0 :: rest)) (pr_refs d) (pr_refs v)
      /\ pr_fps d = 30 /\ pr_fps v = fps)
  \/ (exists e,
        prepare_directory (p0 :: rest) open scale = Err e
        /\ prepare_video rdr scale = Err e).
Proof.
  set (paths0 := p0 :: rest) in *.
  assert (Hn : 1 <= len paths0) by (unfold paths0, len; simpl; lia).
  destruct (last_of_nonempty paths0 Hn) as [p_last Hlast].
  unfold prepare_directory, prepare_video. subst paths0.
  rewrite Hfirst. cbn [bind]. rewrite Hsize, Hfps. cbn [bind].
  destruct (size first) as [w0 h0].
  destruct (Z.leb_spec (count_frames rdr) 0) as [Hc|Hc]; [lia|].
  destruct (compute_scaled_and_target_dims _ _ _ _ _ _) as [dims|e];
    cbn [bind]; [left | right; eauto].
  rewrite (pad_paths_eq _ _ Hlast), pad_indices_eq. cbn [bind fst snd].
  rewrite Hcount, Z.max_r by lia.
  eexists _, _. repeat split. cbn [pr_refs].
  apply Forall2_take. now apply padded_paths_indices.
Qed.

(** C9: a directory of images and a video with the same native size and
    the same number of frames get the same tuple from
    [compute_scaled_and_target_dims], the same [F], and frame sequences
    that agree entry by entry (the path kept at a position is the file at
    the index kept at that position); when the planner refuses the size,
    both branches fail with its exception. *)
Theorem branches_agree
    (p0 : string) (rest : list string) (open : string -> Image)
    (rdr : Reader) (scale : Z) (first : Image) (fps : Z)
    (Hfirst : get_data rdr 0 = Ok first)
    (Hfps : video_fps (fst (meta_of rdr)) = Ok fps)
    (Hsize : size (open p0) = size first)
    (Hcount : count_frames rdr = len (p0 :: rest)) :
  (exists d v,
      prepare_directory (p0 :: rest) open scale = Ok d
      /\ prepare_video rdr scale = Ok v
      /\ pr_dims d = pr_dims v
      /\ pr_F d = pr_F v
      /\ Forall2 (path_at (p0 :: rest)) (pr_refs d) (pr_refs v))
  \/ (exists e,
        prepare_directory (p0 :: rest) open scale = Err e
        /\ prepare_video rdr scale = Err e).
Proof.
  destruct (branches_agree_plan p0 rest open rdr scale first fps
              Hfirst Hfps Hsize Hcount)
    as [(d & v & Hd & Hv & Hdims & HF & Hrefs & _)|(e & Hd & Hv)].
  - left. exists d, v. auto.
  - right. exists e. auto.
Qed.

Lemma branches_agree_witness :
  (exists d v,
      prepare_directory ["f1.png"; "f2.png"; "f10.png"]
        (fun _ => blank 1920 1080) 4 = Ok d
      /\ prepare_video (sample_reader 1920 1080 3 None) 4 = Ok v
      /\ pr_dims d = pr_dims v
      /\ pr_F d = pr_F v
      /\ Forall2 (path_at ["f1.png"; "f2.png"; "f10.png"])
           (pr_refs d) (pr_refs v))
  \/ (exists e,
        prepare_directory ["f1.png"; "f2.png"; "f10.png"]
          (fun _ => blank 1920 1080) 4 = Err e
        /\ prepare_video (sample_reader 1920 1080 3 None) 4 = Err e).
Proof.
  apply (branches_agree "f1.png" ["f2.png"; "f10.png"]
           (fun _ => blank 1920 1080) (sample_reader 1920 1080 3 None) 4
           (blank 1920 1080) 30); reflexivity.
Defined.

(** ** The frame rate of a video source *)

Lemma div_half_even_nearest (m d : Z) :
  0 < d -> 2 * Z.abs (div_half_even m d * d - m) <= d.
Proof.
  intros Hd. unfold div_half_even.
  pose proof (Z.div_mod m d ltac:(lia)) as Hq.
  pose proof (Z.mod_pos_bound m d Hd) as Hr.
  set (q := m / d) in *. set (r := m mod d) in *.
  assert (Hlo : q * d - m = - r) by lia.
  assert (Hhi : (q + 1) * d - m = d - r) by lia.
  destruct (Z.compare_spec (2 * r) d); [destruct (Z.even q)| |];
    rewrite ?Hlo, ?Hhi; lia.
Qed.

Lemma round_nearest (x : float) (z : Z) :
  round x = Ok z -> nearest_integer x z.
Proof.
  unfold round, nearest_integer, raise.
  destruct (Prim2SF x) as [s|s| |s m e]; try discriminate.
  - now intros [= <-].
  - intros [= <-]. cbv zeta.
    destruct (Z.leb_spec 0 e) as [He|He].
    + destruct s; lia.
    + assert (Hd : 0 < 2 ^ (- e)) by (apply Z.pow_pos_nonneg; lia).
      pose proof (div_half_even_nearest (Z.pos m) _ Hd) as Hn.
      destruct s; lia.
Qed.

(** The frame rate of a prepared video is what lines 143-144 compute. *)
Lemma prepare_video_fps (rdr : Reader) (scale : Z) (p : Prepared Z) :
  prepare_video rdr scale = Ok p ->
  video_fps (fst (meta_of rdr)) = Ok (pr_fps p).
Proof.
  unfold prepare_video, raise.
  destruct (get_data rdr 0) as [first|]; cbn [bind]; [|discriminate].
  destruct (size first) as [w0 h0].
  destruct (video_fps _) as [fps|]; cbn [bind]; [|discriminate].
  destruct (_ <=? _); [discriminate|].
  destruct (compute_scaled_and_target_dims _ _ _ _ _ _); cbn [bind];
    [|discriminate].
  destruct (pad_indices _); cbn [bind]; [|discriminate].
  now intros [= <-].
Qed.

(** What [load_frames] returns after the frames are [F] and [fps] of the
    prepared source, and [tH], [tW] of its tuple. *)
Lemma load_frames_returns
    (Tensor : Type) (pil_to_tensor_neg1_1 : Image -> Tensor)
    (BICUBIC : filter) {R : Type} (load : R -> result Image)
    (p : Prepared R) (vid : list Tensor) (tH tW F fps : Z) :
  load_frames Tensor pil_to_tensor_neg1_1 BICUBIC load p
    = Ok (vid, tH, tW, F, fps) ->
  F = pr_F p /\ fps = pr_fps p
  /\ exists sW sH e, pr_dims p = (sW, sH, tW, tH, e).
Proof.
  unfold load_frames. destruct (pr_dims p) as [[[[sW sH] tW'] tH'] e].
  destruct (for_each _ _); cbn [bind]; [|discriminate].
  intros [= <- <- <- <- <-]. eauto 6.
Qed.

(** C10: the frame rate returned for a video is the integer that [round]
    gives for a float under the metadata key (an integer nearest to it,
    so never a fractional rate), the value itself for an integer, and 30
    when the key is missing or holds something that is not a number. *)
Theorem video_frame_rate
    (Tensor : Type) (pil_to_tensor_neg1_1 : Image -> Tensor)
    (BICUBIC : filter) (rdr : Reader) (scale : Z)
    (vid : list Tensor) (tH tW F fps : Z)
    (H : prepare_input_tensor Tensor pil_to_tensor_neg1_1 BICUBIC
           (Video rdr) scale = Ok (vid, tH, tW, F, fps)) :
  match fst (meta_of rdr) with
  | Some (VFloat x) => round x = Ok fps /\ nearest_integer x fps
  | Some (VInt z) => fps = z
  | Some (VBool b) => fps = (if b then 1 else 0)
  | Some (VStr _) | Some VNone | None => fps = 30
  end.
Proof.
  unfold prepare_input_tensor in H.
  destruct (prepare_video rdr scale) as [p|] eqn:Hp; cbn [bind] in H;
    [|discriminate].
  apply load_frames_returns in H as (_ & -> & _).
  apply prepare_video_fps in Hp. unfold video_fps in Hp.
  destruct (fst (meta_of rdr)) as [[b|z|x|s|]|]; cbn [default] in Hp.
  - now injection Hp as <-.
  - now injection Hp as <-.
  - split; [exact Hp | now apply round_nearest].
  - now injection Hp as <-.
  - now injection Hp as <-.
  - now injection Hp as <-.
Qed.

Lemma video_frame_rate_witness :
  round fps_ntsc = Ok 30 /\ nearest_integer fps_ntsc 30.
Proof.
  eapply (video_frame_rate Image (fun im => im) flat
            (sample_reader 4 4 1 (Some (VFloat fps_ntsc))) 4
            _ _ _ _ 30).
  vm_compute. reflexivity.
Defined.

(** ** The two branches, end to end *)



(** * Further properties of the driver *)

(** ** [largest_8n1_leq] *)

(** X1: for [n >= 1] the result is [8k+1] with the largest [k >= 0] such that
    [8k+1 <= n]. *)
Theorem largest_8n1_leq_is_greatest (n : Z) (H : 1 <= n) :
  exists k, 0 <= k
    /\ largest_8n1_leq n = 8 * k + 1
    /\ 8 * k + 1 <= n
    /\ forall j, 0 <= j -> 8 * j + 1 <= n -> j <= k.
Proof.
  exists ((n - 1) / 8).
  assert (Hk : 0 <= (n - 1) / 8) by (apply Z.div_pos; lia).
  pose proof (Z.div_mod (n - 1) 8 ltac:(lia)) as Hq.
  pose proof (Z.mod_pos_bound (n - 1) 8 ltac:(lia)) as Hr.
  unfold largest_8n1_leq. destruct (Z.ltb_spec n 1); [lia|].
  repeat split; lia.
Qed.

Lemma largest_8n1_leq_is_greatest_witness :
  exists k, 0 <= k
    /\ largest_8n1_leq 21 = 8 * k + 1
    /\ 8 * k + 1 <= 21
    /\ forall j, 0 <= j -> 8 * j + 1 <= 21 -> j <= k.
Proof. apply (largest_8n1_leq_is_greatest 21). lia. Defined.

(** X2: a longer padded length never gives a smaller frame count. *)
Theorem largest_8n1_leq_monotone (n m : Z) (H : n <= m) :
  largest_8n1_leq n <= largest_8n1_leq m.
Proof.
  unfold largest_8n1_leq.
  destruct (Z.ltb_spec n 1), (Z.ltb_spec m 1); try lia.
  - pose proof (Z.div_pos (m - 1) 8 ltac:(lia) ltac:(lia)). lia.
  - pose proof (Z.div_le_mono (n - 1) (m - 1) 8 ltac:(lia) ltac:(lia)). lia.
Qed.

Lemma largest_8n1_leq_monotone_witness :
  largest_8n1_leq 16 <= largest_8n1_leq 17.
Proof. apply (largest_8n1_leq_monotone 16 17). lia. Defined.

(** X3: applying the function twice changes nothing, and the lengths it
    leaves as they are are 0 and the numbers of the form 8k+1. *)
Theorem largest_8n1_leq_idempotent (n : Z) :
  largest_8n1_leq (largest_8n1_leq n) = largest_8n1_leq n
  /\ (largest_8n1_leq n = n <-> n = 0 \/ (1 <= n /\ n mod 8 = 1)).
Proof.
  assert (Hfix : forall x, largest_8n1_leq x = x
                           <-> x = 0 \/ (1 <= x /\ x mod 8 = 1)).
  { intros x. unfold largest_8n1_leq. destruct (Z.ltb_spec x 1).
    - lia.
    - pose proof (Z.div_mod (x - 1) 8 ltac:(lia)).
      pose proof (Z.mod_pos_bound (x - 1) 8 ltac:(lia)).
      pose proof (Z.div_mod x 8 ltac:(lia)).
      pose proof (Z.mod_pos_bound x 8 ltac:(lia)).
      lia. }
  split; [|apply Hfix].
  apply Hfix. destruct (Z.lt_ge_cases n 1) as [Hn|Hn].
  - left. now apply largest_8n1_leq_zero.
  - right. pose proof (largest_8n1_leq_bounds n Hn). lia.
Qed.

(** ** [compute_scaled_and_target_dims] *)

Lemma compute_returns_target_dims
    (w0 h0 : Z) (scale : float) (max_w max_h multiple : Z)
    (sW sH tW tH : Z) (e : float) :
  compute_scaled_and_target_dims w0 h0 scale max_w max_h multiple
    = Ok (sW, sH, tW, tH, e) ->
  0 < w0 /\ 0 < h0
  /\ target_dims sW sH max_w max_h multiple = Ok (tW, tH).
Proof.
  unfold compute_scaled_and_target_dims, raise.
  destruct (Z.leb_spec w0 0), (Z.leb_spec h0 0); cbn [orb]; try discriminate.
  destruct (round (mul_int_float w0 _)) as [a|]; cbn [bind]; [|discriminate].
  destruct (round (mul_int_float h0 _)) as [b|]; cbn [bind]; [|discriminate].
  destruct (target_dims a b _ _ _) as [[tw th]|] eqn:Ht; cbn [bind];
    [|discriminate].
  intros [= <- <- <- <- _]. rewrite Ht. repeat split; lia.
Qed.

(** X4: whatever the arguments, a returned target size does not exceed the
    maxima. *)
Theorem targets_within_bounds
    (w0 h0 : Z) (scale : float) (max_w max_h multiple : Z)
    (sW sH tW tH : Z) (e : float)
    (H : compute_scaled_and_target_dims w0 h0 scale max_w max_h multiple
           = Ok (sW, sH, tW, tH, e)) :
  tW <= max_w /\ tH <= max_h.
Proof.
  apply compute_returns_target_dims in H as (_ & _ & Ht).
  now apply target_dims_le_max in Ht.
Qed.

Lemma targets_within_bounds_witness : 2560 <= 2560 /\ 1440 <= 1440.
Proof.
  apply (targets_within_bounds 3840 2160 4 2560 1440 128
           3840 2160 2560 1440 1).
  vm_compute. reflexivity.
Defined.

(** X5: when the block size is positive and both maxima are positive
    multiples of it, a returned target size is made of positive multiples
    of the block size. *)
Theorem targets_block_aligned
    (w0 h0 : Z) (scale : float) (multiple kw kh : Z)
    (sW sH tW tH : Z) (e : float)
    (Hm : 0 < multiple) (Hkw : 0 < kw) (Hkh : 0 < kh)
    (H : compute_scaled_and_target_dims w0 h0 scale
           (kw * multiple) (kh * multiple) multiple
           = Ok (sW, sH, tW, tH, e)) :
  exists a b, 0 < a /\ 0 < b /\ tW = a * multiple /\ tH = b * multiple.
Proof.
  apply compute_returns_target_dims in H as (_ & _ & Ht).
  destruct (target_dims_multiple sW sH _ _ multiple kw kh Hm Hkw Hkh
              eq_refl eq_refl) as (a & b & Ha & Hb & Hab).
  rewrite Hab in Ht. injection Ht as <- <-. eauto 6.
Qed.

Lemma targets_block_aligned_witness :
  exists a b, 0 < a /\ 0 < b /\ 2560 = a * 128 /\ 1408 = b * 128.
Proof.
  apply (targets_block_aligned 3840 2160 4 128 20 11
           3840 2160 2560 1408 1); try lia.
  vm_compute. reflexivity.
Defined.

(** X6: the planner raises "invalid original size" exactly when a source
    dimension is not positive, whatever the other arguments; and with the
    block size 0 it never returns a plan. *)
Theorem invalid_size_rejected
    (w0 h0 : Z) (scale : float) (max_w max_h multiple : Z) :
  (compute_scaled_and_target_dims w0 h0 scale max_w max_h multiple
     = raise ValueError "invalid original size"
   <-> w0 <= 0 \/ h0 <= 0)
  /\ (forall r,
        compute_scaled_and_target_dims w0 h0 scale max_w max_h 0 <> Ok r).
Proof.
  unfold compute_scaled_and_target_dims. split.
  - destruct (Z.leb_spec w0 0), (Z.leb_spec h0 0); cbn [orb];
      try (split; [intros _; lia | reflexivity]).
    split; [|lia]. unfold raise.
    destruct (round (mul_int_float w0 _)) as [a|e1] eqn:H1; cbn [bind].
    2:{ unfold round, raise in H1. destruct (Prim2SF _); try discriminate;
          injection H1 as <-; discriminate. }
    destruct (round (mul_int_float h0 _)) as [b|e2] eqn:H2; cbn [bind].
    2:{ unfold round, raise in H2. destruct (Prim2SF _); try discriminate;
          injection H2 as <-; discriminate. }
    destruct (target_dims a b _ _ _) as [t|e3] eqn:H3; cbn [bind];
      [discriminate|].
    apply target_dims_error in H3. intros [= ->]. discriminate.
  - intros r. destruct ((w0 <=? 0) || (h0 <=? 0)); [discriminate|].
    destruct (round (mul_int_float w0 _)) as [a|]; cbn [bind]; [|discriminate].
    destruct (round (mul_int_float h0 _)) as [b|]; cbn [bind]; [|discriminate].
    unfold target_dims, floordiv. cbn. discriminate.
Qed.

Lemma default_target_bounds
    (w0 h0 : Z) (scale : float) (sW sH tW tH : Z) (e : float)
    (H : compute_scaled_and_target_dims w0 h0 scale
           default_max_w default_max_h default_multiple
           = Ok (sW, sH, tW, tH, e)) :
  (128 <= tW <= 2560 /\ tW mod 128 = 0)
  /\ (128 <= tH <= 1440 /\ (tH mod 128 = 0 \/ tH = 1440)).
Proof.
  apply compute_returns_target_dims in H as (_ & _ & Ht).
  unfold target_dims, floordiv, default_max_w, default_max_h,
    default_multiple in Ht.
  cbn [Z.eqb bind] in Ht.
  assert (Hblock : forall q, Z.max 128 (q * 128) mod 128 = 0).
  { intros q. destruct (Z.max_spec 128 (q * 128)) as [[_ ->]|[_ ->]];
      [apply Z_mod_mult | reflexivity]. }
  match type of Ht with
  | context [if ?c then _ else _] => destruct c eqn:Hup
  end; injection Ht as <- <-.
  - apply andb_true_iff in Hup as [Hw Hh].
    apply Z.leb_le in Hw, Hh.
    pose proof (Hblock ((sW + 128 - 1) / 128)).
    pose proof (Hblock ((sH + 128 - 1) / 128)). lia.
  - pose proof (Hblock (sW / 128)) as Hbw.
    pose proof (Hblock (sH / 128)) as Hbh.
    set (fw := Z.max 128 (sW / 128 * 128)) in *.
    set (fh := Z.max 128 (sH / 128 * 128)) in *.
    assert (128 <= fw /\ 128 <= fh) as [? ?] by (unfold fw, fh; lia).
    repeat split; try lia.
    + destruct (Z.min_spec fw 2560) as [[_ ->]|[_ ->]];
        [exact Hbw | reflexivity].
    + destruct (Z.min_spec fh 1440) as [[_ ->]|[_ ->]]; auto.
Qed.

(** X7: with the default bounds 2560x1440 and block size 128, a returned
    target width is a multiple of 128 between 128 and 2560, and a returned
    target height lies between 128 and 1440 and is a multiple of 128 or is
    1440 itself. *)
Theorem default_targets
    (w0 h0 : Z) (scale : float) (sW sH tW tH : Z) (e : float)
    (H : compute_scaled_and_target_dims w0 h0 scale
           default_max_w default_max_h default_multiple
           = Ok (sW, sH, tW, tH, e)) :
  (128 <= tW <= 2560 /\ tW mod 128 = 0)
  /\ (128 <= tH <= 1440 /\ (tH mod 128 = 0 \/ tH = 1440)).
Proof. exact (default_target_bounds w0 h0 scale sW sH tW tH e H). Qed.

Lemma default_targets_witness :
  (128 <= 2560 <= 2560 /\ 2560 mod 128 = 0)
  /\ (128 <= 1440 <= 1440 /\ (1440 mod 128 = 0 \/ 1440 = 1440)).
Proof.
  apply (default_targets 3840 2160 4 3840 2160 2560 1440 1).
  vm_compute. reflexivity.
Defined.

(** X8: a scaled size that is already made of positive multiples of the block
    size and fits the maxima is kept as the target size. *)
Theorem aligned_scaled_size_is_kept
    (a b max_w max_h multiple : Z)
    (Hm : 0 < multiple) (Ha : 1 <= a) (Hb : 1 <= b)
    (Hw : a * multiple <= max_w) (Hh : b * multiple <= max_h) :
  target_dims (a * multiple) (b * multiple) max_w max_h multiple
    = Ok (a * multiple, b * multiple).
Proof.
  unfold target_dims, floordiv.
  destruct (Z.eqb_spec multiple 0); [lia|]. cbn [bind].
  assert (Hc : forall k, (k * multiple + multiple - 1) / multiple = k).
  { intros k. symmetry. apply Z.div_unique with (multiple - 1); lia. }
  rewrite !Hc, !Z.div_mul by lia.
  rewrite !Z.max_r by nia.
  destruct (Z.leb_spec (a * multiple) max_w), (Z.leb_spec (b * multiple) max_h);
    try lia.
  reflexivity.
Qed.

Lemma aligned_scaled_size_is_kept_witness :
  target_dims (20 * 128) (10 * 128) 2560 1440 128 = Ok (20 * 128, 10 * 128).
Proof. apply (aligned_scaled_size_is_kept 20 10 2560 1440 128); lia. Defined.

(** X9: with a positive block size both dimensions are rounded the same way:
    either the target covers the scaled size in both, or in both it stays
    within the scaled size or one block. *)
Theorem targets_round_together
    (sW sH max_w max_h multiple tW tH : Z)
    (Hm : 0 < multiple)
    (H : target_dims sW sH max_w max_h multiple = Ok (tW, tH)) :
  (sW <= tW /\ sH <= tH)
  \/ (tW <= Z.max multiple sW /\ tH <= Z.max multiple sH).
Proof.
  unfold target_dims, floordiv in H.
  destruct (Z.eqb_spec multiple 0); [lia|]. cbn [bind] in H.
  assert (Hfloor : forall s, (s / multiple) * multiple <= s).
  { intros s. pose proof (Z.mul_div_le s multiple Hm). lia. }
  assert (Hceil : forall s, s <= ((s + multiple - 1) / multiple) * multiple).
  { intros s. pose proof (Z.div_mod (s + multiple - 1) multiple ltac:(lia)).
    pose proof (Z.mod_pos_bound (s + multiple - 1) multiple Hm). lia. }
  match type of H with
  | context [if ?c then _ else _] => destruct c
  end; injection H as <- <-.
  - left. pose proof (Hceil sW). pose proof (Hceil sH). lia.
  - right. pose proof (Hfloor sW). pose proof (Hfloor sH). lia.
Qed.

Lemma targets_round_together_witness :
  (400 <= 512 /\ 400 <= 512)
  \/ (512 <= Z.max 128 400 /\ 512 <= Z.max 128 400).
Proof.
  apply (targets_round_together 400 400 2560 1440 128 512 512); [lia|].
  vm_compute. reflexivity.
Defined.

(** ** [upscale_then_center_crop] *)

Lemma transform_shape_of_result
    (BICUBIC : filter) (img out : Image) (sW sH tW tH : Z) :
  upscale_then_center_crop BICUBIC img sW sH tW tH = Ok out ->
  height out = tH /\ width out = tW.
Proof.
  unfold upscale_then_center_crop.
  destruct (resize BICUBIC img (sW, sH)) as [up|e]; cbn [bind]; [|discriminate].
  intros Hc. apply crop_size in Hc. unfold height, width. rewrite Hc.
  simpl. lia.
Qed.

Lemma centred_window
    (BICUBIC : filter) (img up : Image) (sW sH tW tH : Z)
    (Hup : resize BICUBIC img (sW, sH) = Ok up)
    (HW : 0 <= tW <= sW) (HH : 0 <= tH <= sH)
    (Hpix : Z.max 1 tW * Z.max 1 tH <= 2 * MAX_IMAGE_PIXELS) :
  let l := (sW - tW) / 2 in
  let t := (sH - tH) / 2 in
  exists out,
    upscale_then_center_crop BICUBIC img sW sH tW tH = Ok out
    /\ 0 <= (sW - tW - l) - l <= 1
    /\ 0 <= (sH - tH - t) - t <= 1
    /\ forall x y, 0 <= x < tW -> 0 <= y < tH ->
                   getpixel out x y = getpixel up (l + x) (t + y).
Proof.
  intros l t.
  assert (Hok : is_ok (upscale_then_center_crop BICUBIC img sW sH tW tH)
                = true).
  { apply transform_ok. rewrite Hup. repeat split; (reflexivity || lia). }
  destruct (upscale_then_center_crop BICUBIC img sW sH tW tH) as [out|e]
    eqn:Hout; [|discriminate].
  assert (Hl : 0 <= l) by (apply Z.div_pos; lia).
  assert (Ht : 0 <= t) by (apply Z.div_pos; lia).
  pose proof (Z.div_mod (sW - tW) 2 ltac:(lia)) as Hlq.
  pose proof (Z.mod_pos_bound (sW - tW) 2 ltac:(lia)) as Hlr.
  pose proof (Z.div_mod (sH - tH) 2 ltac:(lia)) as Htq.
  pose proof (Z.mod_pos_bound (sH - tH) 2 ltac:(lia)) as Htr.
  fold l in Hlq. fold t in Htq.
  exists out. split; [reflexivity|]. split; [lia|]. split; [lia|].
  intros x y Hx Hy.
  rewrite (transform_pixels BICUBIC img up out sW sH tW tH Hup Hout x y).
  fold l t. rewrite !Z.max_r by lia.
  destruct (Z.leb_spec 0 (l + x)), (Z.ltb_spec (l + x) sW),
    (Z.leb_spec 0 (t + y)), (Z.ltb_spec (t + y) sH); try lia.
  reflexivity.
Qed.

(** X10: when the target fits inside the scaled size, the output is the window
    of the upscaled frame that starts at [((sW - tW) // 2, (sH - tH) // 2)],
    and that window is centred: the margin left after it exceeds the
    margin before it by 0 or 1 pixel in each direction.  The target holds
    no more pixels than Pillow lets [crop] return. *)
Theorem crop_is_centred
    (BICUBIC : filter) (img up : Image) (sW sH tW tH : Z)
    (Hup : resize BICUBIC img (sW, sH) = Ok up)
    (HW : 0 <= tW <= sW) (HH : 0 <= tH <= sH)
    (Hpix : Z.max 1 tW * Z.max 1 tH <= 2 * MAX_IMAGE_PIXELS) :
  let l := (sW - tW) / 2 in
  let t := (sH - tH) / 2 in
  exists out,
    upscale_then_center_crop BICUBIC img sW sH tW tH = Ok out
    /\ 0 <= (sW - tW - l) - l <= 1
    /\ 0 <= (sH - tH - t) - t <= 1
    /\ forall x y, 0 <= x < tW -> 0 <= y < tH ->
                   getpixel out x y = getpixel up (l + x) (t + y).
Proof. exact (centred_window BICUBIC img up sW sH tW tH Hup HW HH Hpix). Qed.

Lemma crop_is_centred_witness :
  exists out,
    upscale_then_center_crop flat (blank 100 100) 401 300 128 256 = Ok out
    /\ 0 <= (401 - 128 - (401 - 128) / 2) - (401 - 128) / 2 <= 1
    /\ 0 <= (300 - 256 - (300 - 256) / 2) - (300 - 256) / 2 <= 1
    /\ forall x y, 0 <= x < 128 -> 0 <= y < 256 ->
         getpixel out x y
         = getpixel (mkImage (401, 300) (flat (blank 100 100) (401, 300)))
             ((401 - 128) / 2 + x) ((300 - 256) / 2 + y).
Proof.
  apply (crop_is_centred flat (blank 100 100)
           (mkImage (401, 300) (flat (blank 100 100) (401, 300)))
           401 300 128 256);
    [reflexivity | lia | lia | unfold MAX_IMAGE_PIXELS; lia].
Defined.

(** X11: when the target is at least the scaled size, the upscaled frame is
    not centred in the output: it sits in the top-left corner and the
    rest of the output is zero.  The target holds no more pixels than
    Pillow lets [crop] return. *)
Theorem larger_target_pads_right_and_bottom
    (BICUBIC : filter) (img up : Image) (sW sH tW tH : Z)
    (Hup : resize BICUBIC img (sW, sH) = Ok up)
    (HW : 1 <= sW <= tW) (HH : 1 <= sH <= tH)
    (Hpix : Z.max 1 tW * Z.max 1 tH <= 2 * MAX_IMAGE_PIXELS) :
  exists out,
    upscale_then_center_crop BICUBIC img sW sH tW tH = Ok out
    /\ forall x y,
         getpixel out x y
         = if (0 <=? x) && (x <? sW) && (0 <=? y) && (y <? sH)
           then getpixel up x y else (0, 0, 0).
Proof.
  assert (Hok : is_ok (upscale_then_center_crop BICUBIC img sW sH tW tH)
                = true).
  { apply transform_ok. rewrite Hup. repeat split; (reflexivity || lia). }
  destruct (upscale_then_center_crop BICUBIC img sW sH tW tH) as [out|e]
    eqn:Hout; [|discriminate].
  exists out. split; [reflexivity|]. intros x y.
  rewrite (transform_pixels BICUBIC img up out sW sH tW tH Hup Hout x y).
  assert ((sW - tW) / 2 <= 0) by (apply Z.div_le_upper_bound; lia).
  assert ((sH - tH) / 2 <= 0) by (apply Z.div_le_upper_bound; lia).
  rewrite !Z.max_l by lia. now rewrite !Z.add_0_l.
Qed.

Lemma larger_target_pads_right_and_bottom_witness :
  exists out,
    upscale_then_center_crop flat (blank 100 100) 400 400 512 512 = Ok out
    /\ forall x y,
         getpixel out x y
         = if (0 <=? x) && (x <? 400) && (0 <=? y) && (y <? 400)
           then getpixel
                  (mkImage (400, 400) (flat (blank 100 100) (400, 400))) x y
           else (0, 0, 0).
Proof.
  apply (larger_target_pads_right_and_bottom flat (blank 100 100)
           (mkImage (400, 400) (flat (blank 100 100) (400, 400)))
           400 400 512 512);
    [reflexivity | lia | lia | unfold MAX_IMAGE_PIXELS; lia].
Defined.

(** X12: a frame whose size is both the scaled and the target size passes
    through unchanged: it is not resampled, and the output has its size
    and its pixels.  The frame holds no more pixels than Pillow lets
    [crop] return. *)
Theorem same_size_passes_through
    (BICUBIC : filter) (img : Image) (w h : Z)
    (Hsize : size img = (w, h)) (Hw : 0 <= w) (Hh : 0 <= h)
    (Hpix : Z.max 1 w * Z.max 1 h <= 2 * MAX_IMAGE_PIXELS) :
  exists out,
    upscale_then_center_crop BICUBIC img w h w h = Ok out
    /\ size out = size img
    /\ forall x y, 0 <= x < w -> 0 <= y < h ->
                   getpixel out x y = getpixel img x y.
Proof.
  assert (Hup : resize BICUBIC img (w, h) = Ok img).
  { unfold resize. destruct (decide (size img = (w, h))); [reflexivity|].
    contradiction. }
  destruct (centred_window BICUBIC img img w h w h Hup)
    as (out & Hout & _ & _ & Hpx); [lia | lia | exact Hpix |].
  exists out. split; [exact Hout|]. split.
  - pose proof (transform_shape_of_result BICUBIC img out w h w h Hout)
      as [Hh' Hw']. unfold height, width in *.
    rewrite Hsize. destruct (size out). cbn in *. congruence.
  - intros x y Hx Hy. rewrite (Hpx x y Hx Hy).
    now rewrite !Z.sub_diag, Zdiv_0_l, !Z.add_0_l.
Qed.

Lemma same_size_passes_through_witness :
  exists out,
    upscale_then_center_crop flat (blank 128 128) 128 128 128 128 = Ok out
    /\ size out = size (blank 128 128)
    /\ forall x y, 0 <= x < 128 -> 0 <= y < 128 ->
                   getpixel out x y = getpixel (blank 128 128) x y.
Proof.
  apply (same_size_passes_through flat (blank 128 128) 128 128);
    [reflexivity | lia | lia | unfold MAX_IMAGE_PIXELS; lia].
Defined.

(** ** [prepare_input_tensor] *)

Lemma for_each_length {A B : Type} (f : A -> result B) (l : list A)
    (ys : list B) :
  for_each f l = Ok ys -> length ys = length l.
Proof.
  revert ys. induction l as [|x l IH]; intros ys; cbn [for_each].
  - now intros [= <-].
  - destruct (f x) as [y|]; cbn [bind]; [|discriminate].
    destruct (for_each f l) as [ys'|]; cbn [bind]; [|discriminate].
    intros [= <-]. cbn. f_equal. now apply IH.
Qed.

Lemma for_each_each_ok {A B : Type} (f : A -> result B) (l : list A)
    (ys : list B) :
  for_each f l = Ok ys -> Forall (fun x => is_ok (f x) = true) l.
Proof.
  revert ys. induction l as [|x l IH]; intros ys; cbn [for_each].
  - constructor.
  - destruct (f x) as [y|] eqn:Hx; cbn [bind]; [|discriminate].
    destruct (for_each f l) as [ys'|]; cbn [bind]; [|discriminate].
    intros _. constructor; [now rewrite Hx | now apply (IH ys')].
Qed.

(** What the directory branch has fixed when it reaches the frame loop. *)
Lemma prepare_directory_plan
    (paths0 : list string) (open : string -> Image) (scale : Z)
    (p : Prepared string) :
  prepare_directory paths0 open scale = Ok p ->
  1 <= len paths0
  /\ pr_F p = largest_8n1_leq (len paths0 + 4)
  /\ len (pr_refs p) = pr_F p
  /\ pr_fps p = 30.
Proof.
  unfold prepare_directory, raise.
  destruct paths0 as [|p0 rest]; [discriminate|].
  destruct (size (open p0)) as [w0 h0].
  destruct (compute_scaled_and_target_dims _ _ _ _ _ _); cbn [bind];
    [|discriminate].
  assert (Hn : 1 <= len (p0 :: rest)) by (unfold len; cbn; lia).
  destruct (last_of_nonempty (p0 :: rest) Hn) as [p_last Hlast].
  rewrite (pad_paths_eq _ _ Hlast). cbn [bind fst snd].
  intros [= <-]. cbn [pr_F pr_refs pr_fps].
  destruct (slice_padded (p0 :: rest) p_last) as (_ & _ & _ & Hl).
  auto.
Qed.

(** What the video branch has fixed when it reaches the frame loop. *)
Lemma prepare_video_plan (rdr : Reader) (scale : Z) (p : Prepared Z) :
  prepare_video rdr scale = Ok p ->
  let total := count_frames rdr in
  1 <= total
  /\ pr_F p = largest_8n1_leq (total + 4)
  /\ pr_refs p
     = take (Z.to_nat (pr_F p)) (range total ++ replicate 4 (total - 1))
  /\ len (pr_refs p) = pr_F p.
Proof.
  unfold prepare_video, raise.
  destruct (get_data rdr 0) as [first|]; cbn [bind]; [|discriminate].
  destruct (size first) as [w0 h0].
  destruct (video_fps _) as [fps|]; cbn [bind]; [|discriminate].
  destruct (Z.leb_spec (count_frames rdr) 0) as [|Hc]; [discriminate|].
  destruct (compute_scaled_and_target_dims _ _ _ _ _ _); cbn [bind];
    [|discriminate].
  rewrite pad_indices_eq. cbn [bind fst snd].
  rewrite Z.max_r by lia.
  intros [= <-]. cbn [pr_F pr_refs].
  destruct (slice_padded (range (count_frames rdr)) (count_frames rdr - 1))
    as (_ & _ & _ & Hl).
  rewrite len_range, Z.max_r in Hl by lia.
  repeat split; [lia | exact Hl].
Qed.

Lemma load_frames_loads
    (Tensor : Type) (pil_to_tensor_neg1_1 : Image -> Tensor)
    (BICUBIC : filter) {R : Type} (load : R -> result Image)
    (p : Prepared R) (vid : list Tensor) (tH tW F fps : Z) :
  load_frames Tensor pil_to_tensor_neg1_1 BICUBIC load p
    = Ok (vid, tH, tW, F, fps) ->
  length vid = length (pr_refs p)
  /\ Forall (fun r => is_ok (load r) = true) (pr_refs p).
Proof.
  unfold load_frames. destruct (pr_dims p) as [[[[sW sH] tW'] tH'] e].
  destruct (for_each _ _) as [frames|] eqn:Hf; cbn [bind]; [|discriminate].
  intros [= <- _ _ _ _]. split; [now apply for_each_length in Hf|].
  apply for_each_each_ok in Hf.
  eapply Forall_impl; [exact Hf|]. cbn beta. intros r.
  now destruct (load r).
Qed.

(** X13: whatever the source, the list of frames returned has exactly [F]
    entries, and [F] is at least 1 and of the form 8n+1: the tensor and
    the frame count handed to the pipeline agree. *)
Theorem returned_frames_match_F
    (Tensor : Type) (pil_to_tensor_neg1_1 : Image -> Tensor)
    (BICUBIC : filter) (src : Source) (scale : Z)
    (vid : list Tensor) (tH tW F fps : Z)
    (H : prepare_input_tensor Tensor pil_to_tensor_neg1_1 BICUBIC src scale
           = Ok (vid, tH, tW, F, fps)) :
  len vid = F /\ 1 <= F /\ F mod 8 = 1.
Proof.
  unfold prepare_input_tensor, raise in H.
  destruct src as [paths0 open|rdr|]; [| |discriminate].
  - destruct (prepare_directory paths0 open scale) as [p|] eqn:Hp;
      cbn [bind] in H; [|discriminate].
    pose proof (load_frames_returns _ _ _ _ _ _ _ _ _ _ H) as (-> & _ & _).
    apply load_frames_loads in H as [Hlen _].
    apply prepare_directory_plan in Hp as (Hn & HF & Hl & _).
    destruct (largest_8n1_leq_bounds (len paths0 + 4)) as (? & ? & _); [lia|].
    unfold len in *. rewrite Hlen. rewrite HF in *. lia.
  - destruct (prepare_video rdr scale) as [p|] eqn:Hp;
      cbn [bind] in H; [|discriminate].
    pose proof (load_frames_returns _ _ _ _ _ _ _ _ _ _ H) as (-> & _ & _).
    apply load_frames_loads in H as [Hlen _].
    apply prepare_video_plan in Hp as (Hn & HF & _ & Hl).
    destruct (largest_8n1_leq_bounds (count_frames rdr + 4)) as (? & ? & _);
      [lia|].
    unfold len in *. rewrite Hlen. rewrite HF in *. lia.
Qed.

Lemma returned_frames_match_F_witness :
  len [(128, 128)] = 1 /\ 1 <= 1 /\ 1 mod 8 = 1.
Proof.
  apply (returned_frames_match_F (Z * Z) size flat
           (Video (sample_reader 4 4 1 None)) 4 [(128, 128)] 128 128 1 30).
  vm_compute. reflexivity.
Defined.

(** X14: a video is prepared only if every frame of the plan decodes: when the
    metadata or the reader overstate the frame count, so that the first
    [min F total] frames are not all there, no tensor is returned. *)
Theorem planned_frames_decode
    (Tensor : Type) (pil_to_tensor_neg1_1 : Image -> Tensor)
    (BICUBIC : filter) (rdr : Reader) (scale : Z)
    (vid : list Tensor) (tH tW F fps : Z)
    (H : prepare_input_tensor Tensor pil_to_tensor_neg1_1 BICUBIC
           (Video rdr) scale = Ok (vid, tH, tW, F, fps)) :
  Z.min F (count_frames rdr) <= len (rd_frames rdr).
Proof.
  unfold prepare_input_tensor in H.
  destruct (prepare_video rdr scale) as [p|] eqn:Hp;
    cbn [bind] in H; [|discriminate].
  pose proof (load_frames_returns _ _ _ _ _ _ _ _ _ _ H) as (-> & _ & _).
  apply load_frames_loads in H as [_ Hall].
  apply prepare_video_plan in Hp as (Hn & HF & Hrefs & Hl).
  set (total := count_frames rdr) in *.
  destruct (largest_8n1_leq_bounds (total + 4)) as (_ & HFb & _); [lia|].
  rewrite <- HF in HFb.
  set (i := Z.to_nat (Z.min (pr_F p) total - 1)).
  assert (Hi : pr_refs p !! i = Some (Z.of_nat i)).
  { rewrite Hrefs, lookup_take_lt by lia.
    rewrite padded_lookup by lia. f_equal. lia. }
  rewrite Forall_lookup in Hall. specialize (Hall i _ Hi).
  unfold get_data, raise in Hall.
  destruct (Z.ltb_spec (Z.of_nat i) 0); [discriminate|].
  destruct (rd_frames rdr !! Z.to_nat (Z.of_nat i)) as [im|] eqn:Hlk;
    [|discriminate].
  apply lookup_lt_Some in Hlk. unfold len. lia.
Qed.

Lemma planned_frames_decode_witness :
  Z.min 1 (count_frames (sample_reader 4 4 1 None))
  <= len (rd_frames (sample_reader 4 4 1 None)).
Proof.
  apply (planned_frames_decode (Z * Z) size flat
           (sample_reader 4 4 1 None) 4 [(128, 128)] 128 128 1 30).
  vm_compute. reflexivity.
Defined.


(** ** [natural_key] *)

Section NaturalKey.

Import Stdlib.Strings.Ascii.

Lemma isdigit_cons (c : ascii) (d : string) :
  is_digit c = true -> (d = EmptyString \/ isdigit d = true) ->
  isdigit (String c d) = true.
Proof.
  unfold isdigit. cbn [String.list_ascii_of_string forallb String.eqb negb andb].
  intros -> [->|Hd]; [reflexivity|].
  apply andb_true_iff in Hd as [_ Hd]. now rewrite Hd.
Qed.

Lemma re_split_digits_shape (s : string) : split_shape (re_split_digits s).
Proof.
  induction s as [|c s IH]; cbn [re_split_digits].
  - now constructor.
  - destruct (re_split_digits s) as [|t tl]; [inversion IH|].
    destruct (is_digit c) eqn:Hc.
    + destruct t as [|c' t'].
      * destruct tl as [|d tl'].
        -- constructor; [reflexivity | apply isdigit_cons; auto | exact IH].
        -- inversion IH as [|? ? ? _ Hd Hrest]; subst.
           constructor; [reflexivity | apply isdigit_cons; auto | exact Hrest].
      * constructor; [reflexivity | apply isdigit_cons; auto | exact IH].
    + inversion IH as [t0 Ht|t0 d rest Ht Hd Hrest]; subst.
      * constructor. unfold digit_free in *.
        cbn [String.list_ascii_of_string forallb]. now rewrite Hc, Ht.
      * constructor; [|exact Hd | exact Hrest]. unfold digit_free in *.
        cbn [String.list_ascii_of_string forallb]. now rewrite Hc, Ht.
Qed.

Lemma digit_free_not_isdigit (t : string) :
  digit_free t = true -> isdigit t = false.
Proof.
  unfold digit_free, isdigit. destruct t as [|c t]; [reflexivity|].
  cbn [String.list_ascii_of_string forallb String.eqb negb andb].
  intros H. apply andb_true_iff in H as [Hc _].
  apply negb_true_iff in Hc. now rewrite Hc.
Qed.

Lemma string_compare_refl (s : string) : String.compare s s = Eq.
Proof.
  induction s as [|c s IH]; [reflexivity|]. cbn [String.compare].
  unfold Ascii.compare. now rewrite N.compare_refl.
Qed.

Lemma natural_key_aligned (name : string) :
  aligned true (natural_key name) = true.
Proof.
  unfold natural_key.
  induction (re_split_digits_shape (basename name))
    as [t Ht|t d rest Ht Hd _ IH]; cbn [map].
  - now rewrite (digit_free_not_isdigit t Ht).
  - rewrite (digit_free_not_isdigit t Ht), Hd. exact IH.
Qed.

Lemma aligned_list_lt (b : bool) (k1 k2 : list key_item) :
  aligned b k1 = true -> aligned b k2 = true ->
  list_lt k1 k2
  = Val (match key_cmp k1 k2 with Lt => true | _ => false end).
Proof.
  revert b k2. induction k1 as [|x k1 IH]; intros b [|y k2] H1 H2;
    try reflexivity.
  cbn [list_lt key_cmp].
  destruct x as [x|x], y as [y|y], b; cbn in H1, H2; try discriminate;
    cbn [item_eqb item_lt item_cmp].
  - destruct (Z.eqb_spec x y) as [->|Hne].
    + rewrite Z.compare_refl. now apply (IH true).
    + unfold Z.ltb. destruct (Z.compare_spec x y); [lia| |]; reflexivity.
  - destruct (String.eqb_spec x y) as [->|Hne].
    + rewrite string_compare_refl. now apply (IH false).
    + unfold String.ltb.
      destruct (String.compare x y) eqn:Hc; try reflexivity.
      apply String.compare_eq_iff in Hc. contradiction.
Qed.

End NaturalKey.

(** ** The order of sort keys *)

Section KeyOrder.

Import Stdlib.Strings.Ascii.

Lemma string_compare_antisym (s1 s2 : string) :
  String.compare s2 s1 = CompOpp (String.compare s1 s2).
Proof. apply String.compare_antisym. Qed.

Lemma ascii_compare_refl (a : ascii) : Ascii.compare a a = Eq.
Proof. unfold Ascii.compare. apply N.compare_refl. Qed.

Lemma ascii_compare_lt_trans (a b c : ascii) :
  Ascii.compare a b = Lt -> Ascii.compare b c = Lt -> Ascii.compare a c = Lt.
Proof.
  unfold Ascii.compare. rewrite !N.compare_lt_iff. apply N.lt_trans.
Qed.

Lemma string_compare_lt_trans (s1 s2 s3 : string) :
  String.compare s1 s2 = Lt -> String.compare s2 s3 = Lt ->
  String.compare s1 s3 = Lt.
Proof.
  revert s2 s3. induction s1 as [|a s1 IH]; intros [|b s2] [|c s3];
    cbn [String.compare]; try congruence.
  destruct (Ascii.compare a b) eqn:Hab; try discriminate;
    destruct (Ascii.compare b c) eqn:Hbc; try discriminate.
  - apply Ascii.compare_eq_iff in Hab, Hbc. subst.
    rewrite ascii_compare_refl. apply IH.
  - apply Ascii.compare_eq_iff in Hab. subst. now rewrite Hbc.
  - apply Ascii.compare_eq_iff in Hbc. subst. now rewrite Hab.
  - now rewrite (ascii_compare_lt_trans a b c Hab Hbc).
Qed.

Lemma item_cmp_refl (a : key_item) : item_cmp a a = Eq.
Proof.
  destruct a; cbn; [apply Z.compare_refl | apply string_compare_refl].
Qed.

Lemma item_cmp_eq (a b : key_item) : item_cmp a b = Eq -> a = b.
Proof.
  destruct a, b; cbn; try discriminate.
  - intros H. apply Z.compare_eq in H. now subst.
  - intros H. apply String.compare_eq_iff in H. now subst.
Qed.

Lemma item_cmp_antisym (a b : key_item) :
  item_cmp b a = CompOpp (item_cmp a b).
Proof.
  destruct a, b; cbn; try reflexivity;
    [apply Z.compare_antisym | apply String.compare_antisym].
Qed.

Lemma item_cmp_lt_trans (a b c : key_item) :
  item_cmp a b = Lt -> item_cmp b c = Lt -> item_cmp a c = Lt.
Proof.
  destruct a, b, c; cbn; try congruence.
  - rewrite !Z.compare_lt_iff. lia.
  - apply string_compare_lt_trans.
Qed.

Lemma key_cmp_refl (k : list key_item) : key_cmp k k = Eq.
Proof.
  induction k as [|a k IH]; [reflexivity|]. cbn. now rewrite item_cmp_refl.
Qed.

Lemma key_cmp_eq (k1 k2 : list key_item) : key_cmp k1 k2 = Eq -> k1 = k2.
Proof.
  revert k2. induction k1 as [|a k1 IH]; intros [|b k2]; cbn;
    try discriminate; [reflexivity|].
  destruct (item_cmp a b) eqn:Hab; try discriminate.
  apply item_cmp_eq in Hab. subst. intros H. f_equal. now apply IH.
Qed.

Lemma key_cmp_antisym (k1 k2 : list key_item) :
  key_cmp k2 k1 = CompOpp (key_cmp k1 k2).
Proof.
  revert k2. induction k1 as [|a k1 IH]; intros [|b k2]; cbn;
    try reflexivity.
  rewrite (item_cmp_antisym a b).
  destruct (item_cmp a b); cbn; auto.
Qed.

Lemma key_cmp_lt_trans (k1 k2 k3 : list key_item) :
  key_cmp k1 k2 = Lt -> key_cmp k2 k3 = Lt -> key_cmp k1 k3 = Lt.
Proof.
  revert k2 k3. induction k1 as [|a k1 IH]; intros [|b k2] [|c k3]; cbn;
    try congruence.
  destruct (item_cmp a b) eqn:Hab; try discriminate;
    destruct (item_cmp b c) eqn:Hbc; try discriminate.
  - apply item_cmp_eq in Hab, Hbc. subst. rewrite item_cmp_refl. apply IH.
  - apply item_cmp_eq in Hab. subst. now rewrite Hbc.
  - apply item_cmp_eq in Hbc. subst. now rewrite Hab.
  - now rewrite (item_cmp_lt_trans a b c Hab Hbc).
Qed.

Lemma key_cmp_le_trans (k1 k2 k3 : list key_item) :
  key_cmp k1 k2 <> Gt -> key_cmp k2 k3 <> Gt -> key_cmp k1 k3 <> Gt.
Proof.
  intros H12 H23.
  destruct (key_cmp k1 k2) eqn:E12; [| |contradiction].
  - apply key_cmp_eq in E12. now subst.
  - destruct (key_cmp k2 k3) eqn:E23; [| |contradiction].
    + apply key_cmp_eq in E23. subst. now rewrite E12.
    + now rewrite (key_cmp_lt_trans k1 k2 k3 E12 E23).
Qed.

End KeyOrder.

(** ** Sorting by key *)

Section SortByKey.

Context {A : Type} (key : A -> list key_item).
Hypothesis key_aligned : forall x, aligned true (key x) = true.

Local Abbreviation le := (key_le key).

Lemma insert_by_key_spec (x : A) (l : list A) :
  StronglySorted le l ->
  exists out,
    insert_by_key key x l = Val out
    /\ Permutation out (x :: l)
    /\ StronglySorted le out
    /\ forall k, List.filter (fun y => bool_decide (key y = k)) out
                 = List.filter (fun y => bool_decide (key y = k)) (x :: l).
Proof.
  induction l as [|y l IH]; intros Hs; cbn [insert_by_key].
  - exists [x]. repeat split; auto. repeat constructor.
  - rewrite (aligned_list_lt true) by apply key_aligned.
    apply StronglySorted_inv in Hs as [Hs Hy].
    destruct (key_cmp (key y) (key x)) eqn:Hyx.
    + exists (x :: y :: l). repeat split; auto.
      constructor; [now constructor|].
      assert (Hxy : le x y).
      { unfold key_le. rewrite key_cmp_antisym, Hyx. discriminate. }
      constructor; [exact Hxy|].
      eapply Forall_impl; [exact Hy|]. intros z Hz. unfold key_le in *.
      now apply key_cmp_le_trans with (key y).
    + destruct (IH Hs) as (out & -> & Hp & Hso & Hst).
      exists (y :: out). split; [reflexivity|]. split; [|split].
      * rewrite Hp. apply perm_swap.
      * constructor; [exact Hso|].
        rewrite Hp. constructor; [|exact Hy].
        unfold key_le. rewrite Hyx. discriminate.
      * intros k. cbn [List.filter]. rewrite Hst. cbn [List.filter].
        destruct (bool_decide_reflect (key y = k)) as [Hk|Hk];
          destruct (bool_decide_reflect (key x = k)) as [Hk'|Hk'];
          try reflexivity.
        exfalso. rewrite <- Hk' in Hk. rewrite Hk, key_cmp_refl in Hyx.
        discriminate.
    + exists (x :: y :: l). repeat split; auto.
      constructor; [now constructor|].
      assert (Hxy : le x y).
      { unfold key_le. rewrite key_cmp_antisym, Hyx. discriminate. }
      constructor; [exact Hxy|].
      eapply Forall_impl; [exact Hy|]. intros z Hz. unfold key_le in *.
      now apply key_cmp_le_trans with (key y).
Qed.

Lemma sort_by_key_spec (l : list A) :
  exists out,
    sort_by_key key l = Val out
    /\ Permutation out l
    /\ StronglySorted le out
    /\ forall k, List.filter (fun y => bool_decide (key y = k)) out
                 = List.filter (fun y => bool_decide (key y = k)) l.
Proof.
  induction l as [|x l (sorted & Hs & Hp & Hso & Hst)]; cbn [sort_by_key].
  - exists []. repeat split; auto. constructor.
  - rewrite Hs.
    destruct (insert_by_key_spec x sorted Hso) as (out & -> & Hp' & Hso' & Hst').
    exists out. split; [reflexivity|]. split; [|split].
    + now rewrite Hp', Hp.
    + exact Hso'.
    + intros k. rewrite Hst'. cbn [List.filter]. now rewrite Hst.
Qed.

End SortByKey.

(** ** [list_images_natural] *)

Section ListImages.

Import Stdlib.Strings.Ascii.

Lemma append_cons (c : ascii) (a b : string) :
  String.append (String c a) b = String c (String.append a b).
Proof. reflexivity. Qed.

Lemma append_nil (b : string) : String.append EmptyString b = b.
Proof. reflexivity. Qed.

Lemma has_slash_app (a b : string) :
  has_slash (a ++ b) = has_slash a || has_slash b.
Proof.
  unfold has_slash. induction a as [|c a IH]; [reflexivity|].
  rewrite append_cons. cbn [String.list_ascii_of_string existsb].
  now rewrite IH, orb_assoc.
Qed.

Lemma basename_no_slash (f : string) : has_slash f = false -> basename f = f.
Proof.
  destruct f as [|c f]; [reflexivity|]. unfold has_slash.
  cbn [String.list_ascii_of_string existsb basename].
  intros H. apply orb_false_iff in H as [Hc Hf].
  fold (has_slash f) in Hf. rewrite Hf.
  rewrite Ascii.eqb_sym in Hc. now rewrite Hc.
Qed.

Lemma basename_after_slash (a f : string) :
  has_slash f = false -> basename (a ++ String "/" f) = f.
Proof.
  intros Hf. induction a as [|c a IH].
  - rewrite append_nil. cbn [basename]. now rewrite Hf.
  - rewrite append_cons. cbn [basename]. rewrite has_slash_app.
    replace (has_slash (String "/" f)) with true by reflexivity.
    now rewrite orb_true_r.
Qed.

Lemma ends_with_slash (a : string) :
  Ascii.eqb (default "/"%char (last (String.list_ascii_of_string a))) "/" = true ->
  a = EmptyString \/ exists a', a = (a' ++ "/")%string.
Proof.
  induction a as [|c a IH]; intros Hc; [now left|]. right.
  cbn [String.list_ascii_of_string] in Hc. destruct a as [|c' a].
  - cbn in Hc. apply Ascii.eqb_eq in Hc. subst. now exists EmptyString.
  - cbn [String.list_ascii_of_string] in *.
    rewrite last_cons_cons in Hc.
    destruct (IH Hc) as [|[a' Ha']]; [discriminate|].
    exists (String c a'). rewrite append_cons. now rewrite Ha'.
Qed.

Lemma string_app_assoc (a b c : string) :
  ((a ++ b) ++ c = a ++ (b ++ c))%string.
Proof.
  induction a as [|x a IH]; [reflexivity|].
  now rewrite !append_cons, IH.
Qed.

Lemma basename_path_join (folder f : string) :
  has_slash f = false -> basename (path_join folder f) = f.
Proof.
  intros Hf. unfold path_join.
  assert (Hp : String.prefix "/" f = false).
  { destruct f as [|c f]; [reflexivity|]. cbn [String.prefix].
    unfold has_slash in Hf. cbn [String.list_ascii_of_string existsb] in Hf.
    apply orb_false_iff in Hf as [Hc _].
    destruct (ascii_dec "/" c) as [<-|]; [discriminate Hc | reflexivity]. }
  rewrite Hp.
  destruct (String.eqb_spec folder "") as [->|Hne]; cbn [orb].
  - now apply basename_no_slash.
  - destruct (Ascii.eqb _ _) eqn:Hl.
    + destruct (ends_with_slash folder Hl) as [|[a' ->]]; [contradiction|].
      rewrite string_app_assoc. now apply basename_after_slash.
    + now apply basename_after_slash.
Qed.

Lemma StronglySorted_weaken {A : Type} (R S : A -> A -> Prop) (l : list A) :
  (forall x y, R x y -> S x y) -> StronglySorted R l -> StronglySorted S l.
Proof.
  intros HRS. induction 1 as [|x l _ IH Hx]; constructor; [exact IH|].
  eapply Forall_impl; [exact Hx|]. auto.
Qed.

Lemma natural_le_key_cmp (a b : string) :
  key_cmp (natural_key a) (natural_key b) <> Gt -> natural_le a b.
Proof.
  intros H. unfold natural_le.
  rewrite (aligned_list_lt true) by apply natural_key_aligned.
  rewrite key_cmp_antisym.
  destruct (key_cmp (natural_key a) (natural_key b)); [| |contradiction];
    reflexivity.
Qed.

End ListImages.

(** X16: the sort key of a listed file is that of its name alone: for a name
    without a slash, as [os.listdir] gives them, [basename] undoes
    [os.path.join] with any folder. *)
Theorem natural_key_ignores_folder (folder f : string)
    (H : has_slash f = false) :
  basename (path_join folder f) = f
  /\ natural_key (path_join folder f) = natural_key f.
Proof.
  pose proof (basename_path_join folder f H) as Hb.
  split; [exact Hb|]. unfold natural_key.
  now rewrite Hb, (basename_no_slash f H).
Qed.

Lemma natural_key_ignores_folder_witness :
  basename (path_join "inputs/clip" "f10.png") = "f10.png"
  /\ natural_key (path_join "inputs/clip" "f10.png") = natural_key "f10.png".
Proof. apply (natural_key_ignores_folder "inputs/clip" "f10.png"). reflexivity. Defined.

(** X17: two natural keys of ASCII names can always be compared: the items of
    a key are a [str], an [int], a [str], ... in turn, so [<] never meets
    an [int] and a [str] and never raises [TypeError]. *)
Theorem natural_keys_compare (a b : string)
    (Ha : is_ascii a = true) (Hb : is_ascii b = true) :
  aligned true (natural_key a) = true
  /\ exists r, list_lt (natural_key a) (natural_key b) = Val r.
Proof.
  split; [apply natural_key_aligned|].
  eexists. apply (aligned_list_lt true); apply natural_key_aligned.
Qed.

Lemma natural_keys_compare_witness :
  aligned true (natural_key "12ab.png") = true
  /\ exists r, list_lt (natural_key "12ab.png") (natural_key "ab12.png") = Val r.
Proof. apply (natural_keys_compare "12ab.png" "ab12.png"); reflexivity. Defined.

(** X18: for a listing of ASCII names, [list_images_natural] never raises in
    the sort; it returns the files with one of the six extensions, each
    joined to the folder, every one once (a permutation), in natural
    order, and files with equal keys keep the order of the listing. *)
Theorem list_images_natural_sorted (folder : string) (listing : list string)
    (Hfolder : is_ascii folder = true)
    (Hnames : Forall (fun f => is_ascii f = true) listing) :
  let kept := map (path_join folder) (List.filter is_image listing) in
  exists out,
    list_images_natural folder listing = Val out
    /\ Permutation out kept
    /\ StronglySorted natural_le out
    /\ forall k,
         List.filter (fun p => bool_decide (natural_key p = k)) out
         = List.filter (fun p => bool_decide (natural_key p = k)) kept.
Proof.
  intros kept. unfold list_images_natural. fold is_image. fold kept.
  destruct (sort_by_key_spec natural_key natural_key_aligned kept)
    as (out & Hs & Hp & Hso & Hst).
  exists out. split; [exact Hs|]. split; [exact Hp|]. split; [|exact Hst].
  eapply StronglySorted_weaken; [|exact Hso].
  intros x y. apply natural_le_key_cmp.
Qed.

Lemma list_images_natural_sorted_witness :
  let kept :=
    map (path_join "d")
      (List.filter is_image ["f10.png"; "f2.png"; "notes.txt"; "f1.png"]) in
  exists out,
    list_images_natural "d" ["f10.png"; "f2.png"; "notes.txt"; "f1.png"]
      = Val out
    /\ Permutation out kept
    /\ StronglySorted natural_le out
    /\ forall k,
         List.filter (fun p => bool_decide (natural_key p = k)) out
         = List.filter (fun p => bool_decide (natural_key p = k)) kept.
Proof.
  apply (list_images_natural_sorted "d"
           ["f10.png"; "f2.png"; "notes.txt"; "f1.png"]).
  - reflexivity.
  - repeat constructor.
Defined.

(** ** How [natural_key] reads a name *)

Section KeyOfName.

Import Stdlib.Strings.Ascii.

Lemma re_split_digits_text (c : ascii) (s : string) :
  is_digit c = false ->
  exists t tl, re_split_digits s = t :: tl
               /\ re_split_digits (String c s) = String c t :: tl.
Proof.
  intros Hc. cbn [re_split_digits].
  pose proof (re_split_digits_shape s) as Hs.
  destruct (re_split_digits s) as [|t tl]; [inversion Hs|].
  rewrite Hc. eauto.
Qed.

Lemma isdigit_inv (c : ascii) (d : string) :
  isdigit (String c d) = true ->
  is_digit c = true /\ (d = EmptyString \/ isdigit d = true).
Proof.
  unfold isdigit.
  cbn [String.list_ascii_of_string forallb String.eqb negb andb].
  intros H. apply andb_true_iff in H as [Hc Hd]. split; [exact Hc|].
  destruct d as [|c' d]; [now left|]. right. exact Hd.
Qed.

(** A run of digits followed by text is split off as one piece. *)
Lemma re_split_digits_run (d s : string) :
  isdigit d = true -> no_leading_digit s = true ->
  re_split_digits (d ++ s) = EmptyString :: d :: re_split_digits s.
Proof.
  intros Hd Hs. induction d as [|c d IH]; [discriminate|].
  apply isdigit_inv in Hd as [Hc [->|Hd]].
  - rewrite append_cons, append_nil. cbn [re_split_digits]. rewrite Hc.
    destruct s as [|x s]; [reflexivity|].
    cbn [no_leading_digit] in Hs. apply negb_true_iff in Hs.
    destruct (re_split_digits_text x s Hs) as (t & tl & _ & ->).
    reflexivity.
  - rewrite append_cons. cbn [re_split_digits].
    rewrite (IH Hd), Hc. reflexivity.
Qed.

(** Text without digits in front of a string joins its first piece. *)
Lemma re_split_digits_prefix (p s t : string) (tl : list string) :
  digit_free p = true -> re_split_digits s = t :: tl ->
  re_split_digits (p ++ s) = (p ++ t)%string :: tl.
Proof.
  intros Hp Hs. induction p as [|c p IH].
  - now rewrite !append_nil.
  - unfold digit_free in Hp.
    cbn [String.list_ascii_of_string forallb] in Hp.
    apply andb_true_iff in Hp as [Hc Hp]. apply negb_true_iff in Hc.
    rewrite !append_cons. cbn [re_split_digits].
    rewrite (IH Hp), Hc. reflexivity.
Qed.

Lemma append_empty_r (p : string) : (p ++ "")%string = p.
Proof.
  induction p as [|c p IH]; [reflexivity|]. now rewrite append_cons, IH.
Qed.

Lemma isdigit_no_slash (d : string) : isdigit d = true -> has_slash d = false.
Proof.
  unfold isdigit, has_slash. intros H. apply andb_true_iff in H as [_ H].
  induction (String.list_ascii_of_string d) as [|c l IH]; [reflexivity|].
  cbn [forallb existsb] in *. apply andb_true_iff in H as [Hc Hl].
  rewrite (IH Hl), orb_false_r.
  destruct (Ascii.eqb_spec "/" c) as [<-|]; [discriminate Hc | reflexivity].
Qed.

Lemma natural_key_numbered (p d s : string) :
  digit_free p = true -> isdigit d = true -> no_leading_digit s = true ->
  has_slash p = false -> has_slash s = false ->
  natural_key (p ++ d ++ s)
  = KStr (lower p) :: KInt (int_of_digits d)
      :: map (fun t => if isdigit t then KInt (int_of_digits t)
                       else KStr (lower t))
           (re_split_digits s).
Proof.
  intros Hp Hd Hs Hps Hss. unfold natural_key.
  rewrite basename_no_slash
    by (rewrite !has_slash_app, Hps, Hss, (isdigit_no_slash d Hd);
        reflexivity).
  rewrite (re_split_digits_prefix p (d ++ s) EmptyString
             (d :: re_split_digits s) Hp (re_split_digits_run d s Hd Hs)).
  rewrite append_empty_r. cbn [map].
  now rewrite (digit_free_not_isdigit p Hp), Hd.
Qed.

Lemma is_digit_lower_char (c : ascii) : is_digit (lower_char c) = is_digit c.
Proof. destruct c as [[] [] [] [] [] [] [] []]; reflexivity. Qed.

Lemma lower_char_idempotent (c : ascii) :
  lower_char (lower_char c) = lower_char c.
Proof. destruct c as [[] [] [] [] [] [] [] []]; reflexivity. Qed.

Lemma lower_char_digit (c : ascii) : is_digit c = true -> lower_char c = c.
Proof.
  destruct c as [[] [] [] [] [] [] [] []]; vm_compute; intros; congruence.
Qed.

Lemma lower_char_slash (c : ascii) :
  Ascii.eqb (lower_char c) "/" = Ascii.eqb c "/".
Proof. destruct c as [[] [] [] [] [] [] [] []]; reflexivity. Qed.

Lemma lower_idempotent (t : string) : lower (lower t) = lower t.
Proof.
  induction t as [|c t IH]; [reflexivity|]. cbn [lower].
  now rewrite lower_char_idempotent, IH.
Qed.

Lemma isdigit_lower (t : string) : isdigit (lower t) = isdigit t.
Proof.
  unfold isdigit. destruct t as [|c t]; [reflexivity|].
  cbn [lower String.list_ascii_of_string forallb String.eqb negb andb].
  rewrite is_digit_lower_char. f_equal.
  induction t as [|c' t IH]; [reflexivity|].
  cbn [lower String.list_ascii_of_string forallb].
  now rewrite is_digit_lower_char, IH.
Qed.

Lemma lower_digits (t : string) : isdigit t = true -> lower t = t.
Proof.
  unfold isdigit. intros H. apply andb_true_iff in H as [_ H].
  induction t as [|c t IH]; [reflexivity|].
  cbn [String.list_ascii_of_string forallb lower] in *.
  apply andb_true_iff in H as [Hc Ht].
  now rewrite (lower_char_digit c Hc), (IH Ht).
Qed.

Lemma has_slash_lower (p : string) : has_slash (lower p) = has_slash p.
Proof.
  unfold has_slash. induction p as [|c p IH]; [reflexivity|].
  cbn [lower String.list_ascii_of_string existsb].
  rewrite IH. f_equal.
  rewrite (Ascii.eqb_sym "/" (lower_char c)), (Ascii.eqb_sym "/" c).
  apply lower_char_slash.
Qed.

Lemma basename_lower (p : string) : basename (lower p) = lower (basename p).
Proof.
  induction p as [|c p IH]; [reflexivity|]. cbn [lower basename].
  rewrite has_slash_lower, lower_char_slash.
  destruct (has_slash p); [exact IH|].
  destruct (Ascii.eqb c "/"); reflexivity.
Qed.

Lemma re_split_digits_lower (s : string) :
  re_split_digits (lower s) = map lower (re_split_digits s).
Proof.
  induction s as [|c s IH]; [reflexivity|]. cbn [lower re_split_digits].
  rewrite IH, is_digit_lower_char.
  destruct (re_split_digits s) as [|t tl]; [reflexivity|]. cbn [map].
  destruct (is_digit c) eqn:Hc.
  - rewrite (lower_char_digit c Hc).
    destruct t as [|c' t]; [destruct tl as [|d tl]|]; cbn [lower map];
      rewrite ?(lower_char_digit c Hc); reflexivity.
  - reflexivity.
Qed.

End KeyOfName.

(** X19: names that differ only in the case of their ASCII letters have the
    same key, so the sort tells them apart only by their place in the
    listing. *)
Theorem natural_key_ignores_case (name : string)
    (H : is_ascii name = true) :
  natural_key (lower name) = natural_key name.
Proof.
  unfold natural_key.
  rewrite basename_lower, re_split_digits_lower, map_map.
  apply map_ext. intros t. rewrite isdigit_lower.
  destruct (isdigit t) eqn:Ht.
  - now rewrite (lower_digits t Ht).
  - now rewrite lower_idempotent.
Qed.

Lemma natural_key_ignores_case_witness :
  natural_key (lower "Clip/IMG_007.PNG") = natural_key "Clip/IMG_007.PNG".
Proof. apply (natural_key_ignores_case "Clip/IMG_007.PNG"). reflexivity. Defined.

(** X20: ASCII names that agree up to a number are ordered by the value of
    that number, not by its digits as text: with a common text [p] without
    digits, the name whose number is smaller has the smaller key,
    whatever follows the numbers. *)
Theorem numbered_names_in_numeric_order (p d1 d2 s1 s2 : string)
    (Hascii : is_ascii (p ++ s1 ++ s2) = true)
    (Hp : digit_free p = true)
    (Hd1 : isdigit d1 = true) (Hd2 : isdigit d2 = true)
    (Hs1 : no_leading_digit s1 = true) (Hs2 : no_leading_digit s2 = true)
    (Hps : has_slash p = false)
    (Hss1 : has_slash s1 = false) (Hss2 : has_slash s2 = false)
    (Hlt : int_of_digits d1 < int_of_digits d2) :
  list_lt (natural_key (p ++ d1 ++ s1)) (natural_key (p ++ d2 ++ s2))
    = Val true
  /\ list_lt (natural_key (p ++ d2 ++ s2)) (natural_key (p ++ d1 ++ s1))
     = Val false.
Proof.
  clear Hascii.
  rewrite (natural_key_numbered p d1 s1), (natural_key_numbered p d2 s2)
    by assumption.
  cbn [list_lt item_eqb item_lt].
  rewrite String.eqb_refl.
  destruct (Z.eqb_spec (int_of_digits d1) (int_of_digits d2)); [lia|].
  destruct (Z.eqb_spec (int_of_digits d2) (int_of_digits d1)); [lia|].
  destruct (Z.ltb_spec (int_of_digits d1) (int_of_digits d2)); [|lia].
  destruct (Z.ltb_spec (int_of_digits d2) (int_of_digits d1)); [lia|].
  split; reflexivity.
Qed.

Lemma numbered_names_in_numeric_order_witness :
  list_lt (natural_key ("frame" ++ "2" ++ ".png"))
    (natural_key ("frame" ++ "10" ++ ".png")) = Val true
  /\ list_lt (natural_key ("frame" ++ "10" ++ ".png"))
       (natural_key ("frame" ++ "2" ++ ".png")) = Val false.
Proof.
  apply (numbered_names_in_numeric_order "frame" "2" "10" ".png" ".png");
    reflexivity.
Defined.

(** ** The batch loop of [main] *)

Section OutputNames.

Import Stdlib.Strings.Ascii.

Lemma stem_before_dot (a b : string) :
  stem a = a -> stem (a ++ String "." b) = a.
Proof.
  induction a as [|c a IH]; intros Ha.
  - reflexivity.
  - rewrite append_cons. cbn [stem] in *.
    destruct (Ascii.eqb c "."); [discriminate|].
    injection Ha as Ha. now rewrite (IH Ha).
Qed.

Lemma stem_before_extension (a b : string) :
  stem a = a -> stem (a ++ "." ++ b) = a.
Proof.
  change ("." ++ b)%string with (String "." b). apply stem_before_dot.
Qed.

End OutputNames.

(** X21: the place where a result is saved depends only on what stands before
    the first dot of the input's base name: inputs named [a.b] and [a.c],
    or [a] itself, are saved to the same file. *)
Theorem output_path_uses_stem_only (a b c : string) (H : stem a = a) :
  output_path (a ++ "." ++ b) = output_path a
  /\ output_path (a ++ "." ++ b) = output_path (a ++ "." ++ c).
Proof.
  unfold output_path.
  now rewrite !stem_before_extension, H by exact H.
Qed.

Lemma output_path_uses_stem_only_witness :
  output_path ("clip" ++ "." ++ "mp4") = output_path "clip"
  /\ output_path ("clip" ++ "." ++ "mp4") = output_path ("clip" ++ "." ++ "v2.mov").
Proof. apply (output_path_uses_stem_only "clip" "mp4" "v2.mov"). reflexivity. Defined.

Lemma prepare_directory_dims
    (paths0 : list string) (open : string -> Image) (scale : Z)
    (p : Prepared string) :
  prepare_directory paths0 open scale = Ok p ->
  exists w0 h0,
    compute_scaled_and_target_dims w0 h0 (float_of_int scale)
      default_max_w default_max_h default_multiple = Ok (pr_dims p).
Proof.
  unfold prepare_directory, raise.
  destruct paths0 as [|p0 rest]; [discriminate|].
  destruct (size (open p0)) as [w0 h0].
  destruct (compute_scaled_and_target_dims _ _ _ _ _ _) as [dims|] eqn:Hd;
    cbn [bind]; [|discriminate].
  destruct (pad_paths _); cbn [bind]; [|discriminate].
  intros [= <-]. eauto.
Qed.

Lemma prepare_video_dims (rdr : Reader) (scale : Z) (p : Prepared Z) :
  prepare_video rdr scale = Ok p ->
  exists w0 h0,
    compute_scaled_and_target_dims w0 h0 (float_of_int scale)
      default_max_w default_max_h default_multiple = Ok (pr_dims p).
Proof.
  unfold prepare_video, raise.
  destruct (get_data rdr 0) as [first|]; cbn [bind]; [|discriminate].
  destruct (size first) as [w0 h0].
  destruct (video_fps _) as [fps|]; cbn [bind]; [|discriminate].
  destruct (_ <=? _); [discriminate|].
  destruct (compute_scaled_and_target_dims _ _ _ _ _ _) as [dims|] eqn:Hd;
    cbn [bind]; [|discriminate].
  destruct (pad_indices _); cbn [bind]; [|discriminate].
  intros [= <-]. eauto.
Qed.

(** The height and width that [prepare_input_tensor] returns are at least
    one block. *)
Lemma prepared_size_positive
    (Tensor : Type) (pil_to_tensor_neg1_1 : Image -> Tensor)
    (BICUBIC : filter) (src : Source) (scale : Z)
    (vid : list Tensor) (tH tW F fps : Z) :
  prepare_input_tensor Tensor pil_to_tensor_neg1_1 BICUBIC src scale
    = Ok (vid, tH, tW, F, fps) ->
  128 <= tH /\ 128 <= tW.
Proof.
  intros H. unfold prepare_input_tensor, raise in H.
  assert (Hdims : exists (sW sH : Z) (e : float) w0 h0,
             compute_scaled_and_target_dims w0 h0 (float_of_int scale)
               default_max_w default_max_h default_multiple
             = Ok (sW, sH, tW, tH, e)).
  { destruct src as [paths0 open|rdr|]; [| |discriminate].
    - destruct (prepare_directory paths0 open scale) as [p|] eqn:Hp;
        cbn [bind] in H; [|discriminate].
      apply load_frames_returns in H as (_ & _ & sW & sH & e & Hd).
      apply prepare_directory_dims in Hp as (w0 & h0 & Hc).
      rewrite Hd in Hc. eauto 6.
    - destruct (prepare_video rdr scale) as [p|] eqn:Hp;
        cbn [bind] in H; [|discriminate].
      apply load_frames_returns in H as (_ & _ & sW & sH & e & Hd).
      apply prepare_video_dims in Hp as (w0 & h0 & Hc).
      rewrite Hd in Hc. eauto 6. }
  destruct Hdims as (sW & sH & e & w0 & h0 & Hc).
  apply default_target_bounds in Hc. lia.
Qed.

(** X22: the division on line 288 never raises: the height and width that
    [prepare_input_tensor] returns are at least 128, so [th * tw] is not
    zero. *)
Theorem topk_ratio_never_raises
    (Tensor : Type) (pil_to_tensor_neg1_1 : Image -> Tensor)
    (BICUBIC : filter) (src : Source) (scale : Z)
    (vid : list Tensor) (tH tW F fps : Z)
    (H : prepare_input_tensor Tensor pil_to_tensor_neg1_1 BICUBIC src scale
           = Ok (vid, tH, tW, F, fps)) :
  128 * 128 <= tH * tW /\ exists k, topk_ratio tH tW = Ok k.
Proof.
  apply prepared_size_positive in H as [Hh Hw].
  split; [nia|]. unfold topk_ratio.
  destruct (Z.eqb_spec (tH * tW) 0); [nia | eauto].
Qed.

Lemma topk_ratio_never_raises_witness :
  128 * 128 <= 128 * 128 /\ exists k, topk_ratio 128 128 = Ok k.
Proof.
  apply (topk_ratio_never_raises (Z * Z) size flat
           (Video (sample_reader 4 4 1 None)) 4 [(128, 128)] 128 128 1 30).
  vm_compute. reflexivity.
Defined.


Section MainLoop.

Context (Tensor : Type) (pil_to_tensor_neg1_1 : Image -> Tensor)
  (BICUBIC : filter) (Video Frame : Type)
  (pipe : list Tensor -> Z -> Z -> Z -> float -> result Video)
  (tensor2video : Video -> result (list Frame))
  (source_at : gmap string (list Frame * Z) -> string -> Source)
  (cuda_collect : gmap string (list Frame * Z) -> string -> option exn)
  (save_error : list Frame -> string -> Z -> option exn)
  (left_behind : option (list Frame * Z) -> list Frame -> Z
                 -> option (list Frame * Z)).

Local Abbreviation run := (main_loop Tensor pil_to_tensor_neg1_1 BICUBIC Video Frame
                   pipe tensor2video source_at cuda_collect save_error
                   left_behind).

Lemma main_loop_app (xs ys : list string) (results : gmap string (list Frame * Z)) :
  run (xs ++ ys) results
  = match run xs results with
    | (results', None) => run ys results'
    | (results', Some e) => (results', Some e)
    end.
Proof.
  revert results. induction xs as [|p xs IH]; intros results.
  - reflexivity.
  - change ((p :: xs) ++ ys) with (p :: (xs ++ ys)).
    cbn [main_loop].
    destruct (cuda_collect results p); [reflexivity|].
    destruct (String.prefix "." (basename (rstrip_slash p))); [apply IH|].
    destruct (prepare_input_tensor _ _ _ _ _) as [[[[[LQ th] tw] F] fps]|];
      [|apply IH].
    destruct (topk_ratio th tw) as [k|e]; [|reflexivity].
    destruct (pipe LQ F th tw k) as [video|e]; [|reflexivity].
    destruct (tensor2video video) as [frames|e]; [|reflexivity].
    destruct (save_video _ _ _ _ _ _ _) as [r [e|]]; [reflexivity | apply IH].
Qed.

(** The loop as a sequence of turns. *)
Lemma main_loop_cons (p : string) (rest : list string)
    (results : gmap string (list Frame * Z)) :
  run (p :: rest) results
  = match run [p] results with
    | (results', None) => run rest results'
    | (results', Some e) => (results', Some e)
    end.
Proof. exact (main_loop_app [p] rest results). Qed.

(** One turn writes at the output path of its input only. *)
Lemma main_loop_turn_frame (p : string)
    (results results' : gmap string (list Frame * Z))
    (err : option exn) (q : string) :
  run [p] results = (results', err) ->
  output_path (basename (rstrip_slash p)) <> q ->
  results' !! q = results !! q.
Proof.
  cbn [main_loop]. intros Hrun Hq.
  destruct (cuda_collect results p); [now injection Hrun as <- _|].
  destruct (String.prefix "." (basename (rstrip_slash p)));
    [now injection Hrun as <- _|].
  destruct (prepare_input_tensor _ _ _ _ _) as [[[[[LQ th] tw] F] fps]|];
    [|now injection Hrun as <- _].
  destruct (topk_ratio th tw) as [k|e]; [|now injection Hrun as <- _].
  destruct (pipe LQ F th tw k) as [video|e]; [|now injection Hrun as <- _].
  destruct (tensor2video video) as [frames|e]; [|now injection Hrun as <- _].
  unfold save_video in Hrun.
  destruct (save_error frames _ fps) as [e|]; injection Hrun as <- _.
  - now apply lookup_partial_alter_ne.
  - now apply lookup_insert_ne.
Qed.


Lemma main_loop_frame (inputs : list string) (results results' : gmap string (list Frame * Z))
    (err : option exn) (q : string) :
  run inputs results = (results', err) ->
  (forall p, In p inputs -> output_path (basename (rstrip_slash p)) <> q) ->
  results' !! q = results !! q.
Proof.
  revert results. induction inputs as [|p rest IH]; intros results Hrun Hq.
  - cbn in Hrun. now injection Hrun as <- _.
  - rewrite main_loop_cons in Hrun.
    destruct (run [p] results) as [r1 err1] eqn:H1.
    assert (Hr1 : r1 !! q = results !! q).
    { apply (main_loop_turn_frame p results r1 err1 q H1). apply Hq. now left. }
    destruct err1 as [e1|].
    + injection Hrun as <- _. exact Hr1.
    + rewrite <- Hr1. apply (IH r1 Hrun). intros p' Hp'. apply Hq. now right.
Qed.



(** X23: the loop writes nowhere else: a path that is not the output path of
    one of the inputs holds after the run what it held before. *)
Theorem main_writes_only_output_paths
    (inputs : list string) (results results' : gmap string (list Frame * Z))
    (err : option exn) (q : string)
    (Hrun : run inputs results = (results', err))
    (Hq : forall p, In p inputs ->
                    output_path (basename (rstrip_slash p)) <> q) :
  results' !! q = results !! q.
Proof. exact (main_loop_frame inputs results results' err q Hrun Hq). Qed.



(** X26: the result of an input that is processed and saved replaces
    whatever the inputs before it saved at the same output path. *)
Theorem later_result_replaces_earlier
    (xs : list string) (p : string)
    (results r1 : gmap string (list Frame * Z))
    (LQ : list Tensor) (th tw F fps : Z) (k : float) (video : Video)
    (frames : list Frame)
    (Hxs : run xs results = (r1, None))
    (Hcuda : cuda_collect r1 p = None)
    (Hname : String.prefix "." (basename (rstrip_slash p)) = false)
    (Hprep : prepare_input_tensor Tensor pil_to_tensor_neg1_1 BICUBIC
               (source_at r1 p) 4 = Ok (LQ, th, tw, F, fps))
    (Hk : topk_ratio th tw = Ok k)
    (Hpipe : pipe LQ F th tw k = Ok video)
    (Hframes : tensor2video video = Ok frames)
    (Hsave : save_error frames (output_path (basename (rstrip_slash p))) fps
             = None) :
  let out := output_path (basename (rstrip_slash p)) in
  run (xs ++ [p]) results
    = (<[out := (frames, fps)]> r1, None)
  /\ fst (run (xs ++ [p]) results) !! out = Some (frames, fps).
Proof.
  intros out.
  assert (Hrun : run (xs ++ [p]) results
                 = (<[out := (frames, fps)]> r1, None)).
  { rewrite main_loop_app, Hxs. cbn [main_loop].
    rewrite Hcuda, Hname, Hprep, Hk, Hpipe, Hframes. unfold save_video.
    now rewrite Hsave. }
  split; [exact Hrun|]. rewrite Hrun. cbn [fst]. apply lookup_insert_eq.
Qed.

End MainLoop.

Lemma main_writes_only_output_paths_witness :
  fst (main_loop (Z * Z) size flat (list (Z * Z)) (Z * Z) echo_pipe
         frames_of one_video_at cuda_fine writer_fine keeps_old
         ["a.mp4"] ∅) !! "other.mp4"
  = (∅ : gmap string (list (Z * Z) * Z)) !! "other.mp4".
Proof.
  apply (main_writes_only_output_paths (Z * Z) size flat (list (Z * Z))
           (Z * Z) echo_pipe frames_of one_video_at cuda_fine writer_fine
           keeps_old ["a.mp4"] ∅ _
           (snd (main_loop (Z * Z) size flat (list (Z * Z)) (Z * Z) echo_pipe
                   frames_of one_video_at cuda_fine writer_fine keeps_old
                   ["a.mp4"] ∅))).
  - now destruct (main_loop _ _ _ _ _ _ _ _ _ _ _ _ _).
  - intros p [<-|[]]. vm_compute. discriminate.
Defined.



Lemma later_result_replaces_earlier_witness :
  let out := output_path (basename (rstrip_slash "in/a.mov")) in
  main_loop (Z * Z) size flat (list (Z * Z)) (Z * Z) echo_pipe frames_of
    one_video_at cuda_fine writer_fine keeps_old
    ([] ++ ["in/a.mov"]) (<[out := ([], 25)]> ∅)
  = (<[out := ([(128, 128)], 30)]> (<[out := ([], 25)]> ∅), None)
  /\ fst (main_loop (Z * Z) size flat (list (Z * Z)) (Z * Z) echo_pipe
            frames_of one_video_at cuda_fine writer_fine keeps_old
            ([] ++ ["in/a.mov"])
            (<[out := ([], 25)]> ∅)) !! out
     = Some ([(128, 128)], 30).
Proof.
  apply (later_result_replaces_earlier (Z * Z) size flat (list (Z * Z))
           (Z * Z) echo_pipe frames_of one_video_at cuda_fine writer_fine
           keeps_old [] "in/a.mov"
           (<[output_path (basename (rstrip_slash "in/a.mov")) := ([], 25)]> ∅)
           (<[output_path (basename (rstrip_slash "in/a.mov")) := ([], 25)]> ∅)
           [(128, 128)] 128 128 1 30
           (mul_int_float 1280 (mul_int_float 768 2)
            / float_of_int (128 * 128))%float
           [(128, 128)] [(128, 128)]);
    try reflexivity.
  all: vm_compute; reflexivity.
Defined.

(** ** [is_video] and [parse_cli_inputs] *)

Section Cli.

Import Stdlib.Strings.Ascii.

Lemma lower_app (a b : string) : lower (a ++ b) = (lower a ++ lower b)%string.
Proof.
  induction a as [|c a IH]; [reflexivity|].
  rewrite append_cons. cbn [lower]. now rewrite append_cons, IH.
Qed.

Lemma string_length_app (a b : string) :
  String.length (a ++ b) = (String.length a + String.length b)%nat.
Proof.
  induction a as [|c a IH]; [reflexivity|].
  rewrite append_cons. cbn [String.length]. now rewrite IH.
Qed.

Lemma substring_all (b : string) :
  String.substring 0 (String.length b) b = b.
Proof. induction b as [|c b IH]; [reflexivity|]. cbn. now rewrite IH. Qed.

Lemma substring_after (a b : string) :
  String.substring (String.length a) (String.length b) (a ++ b) = b.
Proof.
  induction a as [|c a IH]; [apply substring_all|].
  rewrite append_cons. cbn [String.length String.substring]. exact IH.
Qed.

Lemma endswith_app (a b : string) : endswith (a ++ b) b = true.
Proof.
  unfold endswith. rewrite string_length_app.
  replace (String.length a + String.length b - String.length b)%nat
    with (String.length a) by lia.
  rewrite substring_after, String.eqb_refl, andb_true_r.
  apply Nat.leb_le. lia.
Qed.

Lemma parse_args_help (exists_ : string -> bool) (args parsed : list string) :
  parse_args exists_ args parsed = None
  <-> exists raw, In raw args /\ (raw = "-h" \/ raw = "--help")%string.
Proof.
  revert parsed. induction args as [|raw rest IH]; intros parsed;
    cbn [parse_args].
  - split; [discriminate | intros (raw & [] & _)].
  - destruct (String.eqb_spec raw "-h") as [->|Hh]; cbn [orb].
    { split; [intros _ | reflexivity]. exists "-h"%string. split; [now left | now left]. }
    destruct (String.eqb_spec raw "--help") as [->|Hhelp].
    { split; [intros _ | reflexivity]. exists "--help"%string.
      split; [now left | now right]. }
    assert (Hrest : (exists raw0, In raw0 (raw :: rest)
                       /\ (raw0 = "-h" \/ raw0 = "--help")%string)
                    <-> (exists raw0, In raw0 rest
                           /\ (raw0 = "-h" \/ raw0 = "--help")%string)).
    { split; intros (r & Hin & Hr).
      - destruct Hin as [<-|Hin]; [destruct Hr; contradiction|]. eauto.
      - exists r. split; [now right | exact Hr]. }
    rewrite Hrest. destruct (cli_entry raw =? "")%string; apply IH.
Qed.

Lemma parse_args_entries (exists_ : string -> bool)
    (args parsed l : list string) :
  parse_args exists_ args parsed = Some l ->
  l = parsed
      ++ map (resolve_entry exists_)
           (List.filter (fun e => negb (e =? "")%string) (map cli_entry args)).
Proof.
  revert parsed. induction args as [|raw rest IH]; intros parsed;
    cbn [parse_args map List.filter].
  - intros [= <-]. now rewrite app_nil_r.
  - destruct ((raw =? "-h")%string || (raw =? "--help")%string);
      [discriminate|].
    destruct (cli_entry raw =? "")%string; cbn [negb].
    + apply IH.
    + intros H. apply IH in H. rewrite H, <- app_assoc. reflexivity.
Qed.

End Cli.

(** X27: a file whose name ends with one of the four video extensions, in any
    mix of upper and lower case, is taken as a video. *)
Theorem is_video_ignores_case (isfile : string -> bool) (p e : string)
    (Hascii : is_ascii (p ++ e) = true)
    (Hfile : isfile (p ++ e)%string = true)
    (Hext : In (lower e) video_exts) :
  is_video isfile (p ++ e) = true.
Proof.
  unfold is_video. rewrite Hfile, lower_app. cbn [andb].
  apply existsb_exists. exists (lower e). split; [exact Hext|].
  apply endswith_app.
Qed.

Lemma is_video_ignores_case_witness :
  is_video (fun _ => true) ("clips/Take1" ++ ".MoV") = true.
Proof.
  apply (is_video_ignores_case (fun _ => true) "clips/Take1" ".MoV");
    [reflexivity | reflexivity |].
  right. left. reflexivity.
Defined.

(** X28: [parse_cli_inputs] ends the program exactly when one of the arguments
    is [-h] or [--help], wherever it stands among them. *)
Theorem help_flag_exits (exists_ : string -> bool)
    (args default_inputs : list string) :
  parse_cli_inputs exists_ args default_inputs = None
  <-> exists raw, In raw args /\ (raw = "-h" \/ raw = "--help")%string.
Proof.
  unfold parse_cli_inputs. destruct args as [|raw rest].
  - split; [discriminate | intros (r & [] & _)].
  - rewrite <- (parse_args_help exists_ (raw :: rest) []).
    destruct (parse_args exists_ (raw :: rest) []) as [[|x l]|];
      split; try discriminate; reflexivity.
Qed.

(** X29: on ASCII arguments, when [parse_cli_inputs] returns, it returns the
    default inputs, or
    else a list that is not empty: the arguments in order, each without
    its leading [--] and surrounding white space, blank ones left out,
    and each one that is relative and missing replaced by its place under
    [./inputs] when that exists. *)
Theorem parsed_inputs (exists_ : string -> bool)
    (args default_inputs l : list string)
    (Hascii : Forall (fun raw => is_ascii raw = true) args)
    (H : parse_cli_inputs exists_ args default_inputs = Some l) :
  l = default_inputs
  \/ (l <> []
      /\ l = map (resolve_entry exists_)
               (List.filter (fun e => negb (e =? "")%string)
                  (map cli_entry args))).
Proof.
  unfold parse_cli_inputs in H. destruct args as [|raw rest].
  - left. now injection H as <-.
  - destruct (parse_args exists_ (raw :: rest) []) as [[|x parsed]|] eqn:Hp;
      [left; now injection H as <- | | discriminate].
    right. injection H as <-. split; [discriminate|].
    now apply parse_args_entries in Hp.
Qed.

Lemma parsed_inputs_witness :
  ["a.mp4"; "./inputs/b.mp4"] = ["default.mp4"]
  \/ (["a.mp4"; "./inputs/b.mp4"] <> []
      /\ ["a.mp4"; "./inputs/b.mp4"]
         = map (resolve_entry (fun p => (p =? "./inputs/b.mp4")%string))
             (List.filter (fun e => negb (e =? "")%string)
                (map cli_entry ["--a.mp4"; "  "; "-- b.mp4 "]))).
Proof.
  apply (parsed_inputs (fun p => (p =? "./inputs/b.mp4")%string)
           ["--a.mp4"; "  "; "-- b.mp4 "] ["default.mp4"]).
  - repeat constructor.
  - vm_compute. reflexivity.
Defined.
